(** * PyCeWL: a shallow embedding of [pycewl.py]

    The embedding follows the class [PyCeWL] of [pycewl.py]: the tokenizer
    [extract_words], the e-mail extractor [extract_emails], the scope test
    [is_valid_url] and the recursive [crawl] with its three accumulators
    ([visited_urls], [words], [emails]).

    Python strings are sequences of Unicode code points; a code point is a
    number in [N].  The libraries the class calls ([re], [str.lower],
    [urllib.parse], [requests], [bs4]) are not part of the program: the part
    of the Unicode tables above Latin-1 and the web are interfaces
    ([Unicode], [Web]); the Latin-1 tables, on which the default pattern
    works, are written out. *)

From Stdlib Require Import ZArith NArith Bool List String Ascii Lia.
From stdpp Require Import base list gmap strings relations sorting.
Import ListNotations.

(** ** Code points and strings *)

Abbreviation char := N.
Abbreviation str := (list N).

(** A Python literal of ASCII characters, as code points. *)
Definition py (s : string) : str := map N_of_ascii (list_ascii_of_string s).
Arguments py _%_string.

Definition in_range (lo hi c : char) : bool := ((lo <=? c) && (c <=? hi))%N.
Arguments in_range (lo hi c)%_N.

(** ** Unicode data

    [latin1_word] is the class [\w] of [re] (for [str] patterns: alphanumeric
    or underscore) on U+0000..U+00FF; [latin1_lower] is the lowercase mapping
    there. *)

Definition latin1_word (c : char) : bool :=
  in_range 0x30 0x39 c || in_range 0x41 0x5A c || (c =? 0x5F)%N
  || in_range 0x61 0x7A c || (c =? 0xAA)%N || in_range 0xB2 0xB3 c
  || (c =? 0xB5)%N || in_range 0xB9 0xBA c || in_range 0xBC 0xBE c
  || in_range 0xC0 0xD6 c || in_range 0xD8 0xF6 c || in_range 0xF8 0xFF c.

Definition latin1_lower (c : char) : char :=
  if in_range 0x41 0x5A c then (c + 0x20)%N
  else if in_range 0xC0 0xDE c && negb (c =? 0xD7)%N then (c + 0x20)%N
  else c.

(** The tables above Latin-1.  [word_above c] is [\w] on a code point above
    U+00FF.  [lower_above before c after] is what [str.lower] puts for such a
    code point [c] standing between [before] and [after] (the context matters
    for U+03A3 only, and the result may have more than one code point). *)
Class Unicode := {
  word_above : char -> bool;
  lower_above : str -> char -> str -> str
}.

(** ** The regular expressions of the program

    The two word patterns and the e-mail pattern are sequences of three
    kinds of items: the word boundary [\b], one literal character, and a
    greedy repetition [cls{n,}] of a character class ([cls+] is [cls{1,}]). *)
Inductive item :=
| Boundary
| Lit (a : char)
| AtLeast (n : nat) (cls : char -> bool).
Arguments Lit a%_N.

Abbreviation pattern := (list item).

(** ** Configuration, pages and state *)

(** What the crawler keeps of a parsed page: [soup.get_text()] once scripts
    and styles are removed, the [content] attribute of every [meta] tag (the
    empty string when the tag has none) and the [href] of every [a] tag that
    has one, in document order. *)
Record page := {
  page_text : str;
  meta_contents : list str;
  hrefs : list str
}.

(** The outcome of lines 90-93: [session.get] or [raise_for_status] raises a
    [RequestException], the parser raises, or the page is there. *)
Inductive response :=
| RequestFailed
| ParseFailed
| Parsed (p : page).

(** The web and [urllib.parse].  [netloc url] is [urlparse(url).netloc] and
    [urljoin base href] is [urljoin(base, href)]; both are [None] when the
    call raises [ValueError].  [http_get earlier url] is the outcome of
    requesting [url] after the requests [earlier]. *)
Class Web := {
  netloc : str -> option str;
  urljoin : str -> str -> option str;
  http_get : list str -> str -> response
}.

(** The instance: the three accumulators of [__init__], and the requests sent
    so far, each with the depth of the progress line printed before it. *)
Record state := {
  visited_urls : gset str;
  words : gmap str nat;
  emails : gset str;
  requests : list (str * Z)
}.

(** How a call ends: it returns, or an exception leaves it. *)
Inductive outcome := Returned | Raised.

(** The fields [__init__] stores ([auth] and [user_agent] only configure the
    HTTP session, which is part of [Web]). *)
Record config := {
  start_url : str;
  depth : Z;
  min_word_length : Z;
  max_word_length : option Z;
  lowercase : bool;
  with_numbers : bool;
  email_file : option str;
  meta : bool
}.

Section Tokenizer.
Context {U : Unicode}.

Definition is_word_char (c : char) : bool :=
  if (c <? 0x100)%N then latin1_word c else word_above c.

Definition is_word (oc : option char) : bool :=
  match oc with Some c => is_word_char c | None => false end.

(** [\b] between the character before the position ([None] at the start of
    the text) and the text that follows. *)
Definition at_boundary (prev : option char) (s : str) : bool :=
  xorb (is_word prev) (is_word (head s)).

(** [str.lower]. *)
Fixpoint lower_from (before s : str) : str :=
  match s with
  | [] => []
  | c :: rest =>
      (if (c <? 0x100)%N then [latin1_lower c] else lower_above before c rest)
        ++ lower_from (before ++ [c]) rest
  end.

Definition str_lower (s : str) : str := lower_from [] s.

(** [greedy cls n cont k prev s]: [k] characters of the repetition are
    taken; take as many more as possible, and give back one at a time
    until the rest of the pattern [cont] matches. *)
Fixpoint greedy (cls : char -> bool) (n : nat)
    (cont : option char -> str -> option str)
    (k : nat) (prev : option char) (s : str) : option str :=
  let stop := if (n <=? k)%nat then cont prev s else None in
  match s with
  | c :: s' =>
      if cls c then
        match greedy cls n cont (S k) (Some c) s' with
        | Some m => Some (c :: m)
        | None => stop
        end
      else stop
  | [] => stop
  end.

(** The text the pattern matches at the start of [s], if it matches. *)
Fixpoint match_here (p : pattern) (prev : option char) (s : str) : option str :=
  match p with
  | [] => Some []
  | Boundary :: p' => if at_boundary prev s then match_here p' prev s else None
  | Lit a :: p' =>
      match s with
      | c :: s' =>
          if (c =? a)%N then cons c <$> match_here p' (Some c) s' else None
      | [] => None
      end
  | AtLeast n cls :: p' => greedy cls n (match_here p') 0 prev s
  end.

(** [re.findall] for a pattern without groups whose matches are not empty:
    the matches from left to right, the search resuming where the last
    match ended ([skip] counts the characters of that match still to pass). *)
Fixpoint findall_from (p : pattern) (prev : option char) (skip : nat) (s : str)
  : list str :=
  match s with
  | [] => []
  | c :: s' =>
      match skip with
      | S k => findall_from p (Some c) k s'
      | O =>
          match match_here p prev s with
          | Some m => m :: findall_from p (Some c) (pred (length m)) s'
          | None => findall_from p (Some c) 0 s'
          end
      end
  end.

Definition findall (p : pattern) (text : str) : list str :=
  findall_from p None 0 text.

(** The class [[a-zA-Z\u00C0-\u00FF]] of the pattern without numbers. *)
Definition letter_class (c : char) : bool :=
  in_range 0x61 0x7A c || in_range 0x41 0x5A c || in_range 0xC0 0xFF c.

(** The class [[\w\u00C0-\u024F]] of the pattern with numbers. *)
Definition alnum_class (c : char) : bool :=
  is_word_char c || in_range 0xC0 0x24F c.

Definition word_pattern (self : config) : pattern :=
  if with_numbers self
  then [Boundary; AtLeast 1 alnum_class; Boundary]
  else [Boundary; AtLeast 1 letter_class; Boundary].

(** The test of lines 66-67 on the length of a match. *)
Definition length_ok (self : config) (word : str) : bool :=
  let word_len := Z.of_nat (length word) in
  (min_word_length self <=? word_len)%Z
  && match max_word_length self with
     | None => true
     | Some mx => (word_len <=? mx)%Z
     end.

(** The loop of lines 63-69. *)
Fixpoint filter_words (self : config) (words filtered_words : list str)
  : list str :=
  match words with
  | [] => filtered_words
  | word :: rest =>
      filter_words self rest
        (if length_ok self word
         then filtered_words ++ [str_lower word]
         else filtered_words)
  end.

Definition extract_words (self : config) (text : str) : list str :=
  let words := findall (word_pattern self) text in
  filter_words self words [].

(** [\b[A-Za-z0-9._%+-]+@[A-Za-z0-9.-]+\.[A-Z|a-z]{2,}\b] *)
Definition email_local_class (c : char) : bool :=
  in_range 0x41 0x5A c || in_range 0x61 0x7A c || in_range 0x30 0x39 c
  || (c =? 0x2E)%N || (c =? 0x5F)%N || (c =? 0x25)%N || (c =? 0x2B)%N
  || (c =? 0x2D)%N.

Definition email_domain_class (c : char) : bool :=
  in_range 0x41 0x5A c || in_range 0x61 0x7A c || in_range 0x30 0x39 c
  || (c =? 0x2E)%N || (c =? 0x2D)%N.

Definition email_tld_class (c : char) : bool :=
  in_range 0x41 0x5A c || (c =? 0x7C)%N || in_range 0x61 0x7A c.

Definition email_pattern : pattern :=
  [Boundary; AtLeast 1 email_local_class; Lit 0x40;
   AtLeast 1 email_domain_class; Lit 0x2E; AtLeast 2 email_tld_class;
   Boundary].

Definition extract_emails (text : str) : list str :=
  findall email_pattern text.
End Tokenizer.


(** ** The crawler *)

(** [Counter.update(elems)]: one more occurrence for every element. *)
Definition counter_update (c : gmap str nat) (elems : list str) : gmap str nat :=
  foldl (fun c w => <[w := S (default 0%nat (c !! w))]> c) c elems.

(** The count a [Counter] gives for a word (0 for a missing key). *)
Definition count (c : gmap str nat) (w : str) : nat := default 0%nat (c !! w).

(** Truth value of an optional string ([None] and the empty string are false). *)
Definition truthy (o : option str) : bool :=
  match o with
  | Some (_ :: _) => true
  | _ => false
  end.

(** [s.split('#')[0]]: the part of [s] before its first [#]. *)
Fixpoint before_hash (s : str) : str :=
  match s with
  | [] => []
  | c :: s' => if (c =? 0x23)%N then [] else c :: before_hash s'
  end.

(** [PyCeWL(...)] right after [__init__]. *)
Definition new_instance : state :=
  {| visited_urls := ∅; words := ∅; emails := ∅; requests := [] |}.

Section Crawler.
Context {U : Unicode} {W : Web}.

Definition is_valid_url (self : config) (url : str) : option bool :=
  match netloc (start_url self) with
  | None => None
  | Some parsed_start =>
      match netloc url with
      | None => None
      | Some parsed_url => Some (bool_decide (parsed_start = parsed_url))
      end
  end.

(** Lines 86-90: the URL is marked, then requested. *)
Definition begin_request (st : state) (url : str) (current_depth : Z) : state :=
  {| visited_urls := {[url]} ∪ visited_urls st;
     words := words st;
     emails := emails st;
     requests := requests st ++ [(url, current_depth)] |}.

(** Lines 112-118: the words of the [content] of every [meta] tag. *)
Fixpoint meta_update (self : config) (contents : list str) (c : gmap str nat)
  : gmap str nat :=
  match contents with
  | [] => c
  | content :: rest =>
      meta_update self rest
        (match content with
         | [] => c
         | _ :: _ => counter_update c (extract_words self content)
         end)
  end.

(** Lines 100-118: words, e-mails and metadata of a parsed page. *)
Definition harvest (self : config) (p : page) (st : state) : state :=
  let text := page_text p in
  let ws := counter_update (words st) (extract_words self text) in
  let es := if truthy (email_file self)
            then emails st ∪ list_to_set (extract_emails text)
            else emails st in
  let ws := if meta self then meta_update self (meta_contents p) ws else ws in
  {| visited_urls := visited_urls st; words := ws; emails := es;
     requests := requests st |}.

(** Lines 122-126, [rec] being the recursive call [self.crawl(_, current_depth + 1)].
    The loop is inside the [try]: an exception of [urljoin] or one leaving
    the recursive call ends the loop and is caught by the caller's frame. *)
Fixpoint crawl_links (rec : state -> str -> option (state * outcome))
    (url : str) (links : list str) (st : state) : option state :=
  match links with
  | [] => Some st
  | href :: rest =>
      match urljoin url href with
      | None => Some st
      | Some next_url =>
          match rec st (before_hash next_url) with
          | None => None
          | Some (st', Raised) => Some st'
          | Some (st', Returned) => crawl_links rec url rest st'
          end
      end
  end.

(** [crawl], with a bound [fuel] on the nesting of calls ([None] when the
    bound is reached). *)
Fixpoint crawl_fuel (fuel : nat) (self : config) (st : state) (url : str)
    (current_depth : Z) : option (state * outcome) :=
  match fuel with
  | O => None
  | S fuel' =>
      if (current_depth >? depth self)%Z || bool_decide (url ∈ visited_urls st)
      then Some (st, Returned)
      else
        match is_valid_url self url with
        | None => Some (st, Raised)
        | Some false => Some (st, Returned)
        | Some true =>
            let st1 := begin_request st url current_depth in
            match http_get (map fst (requests st)) url with
            | Parsed p =>
                let st2 := harvest self p st1 in
                if (current_depth <? depth self)%Z then
                  match crawl_links
                          (fun s next_url =>
                             crawl_fuel fuel' self s next_url (current_depth + 1))
                          url (hrefs p) st2 with
                  | Some st3 => Some (st3, Returned)
                  | None => None
                  end
                else Some (st2, Returned)
            | _ => Some (st1, Returned)
            end
        end
  end.

(** Calls nest at most once per depth up to [depth self]. *)
Definition fuel_for (self : config) (current_depth : Z) : nat :=
  S (Z.to_nat (depth self - current_depth)).

Definition crawl (self : config) (st : state) (url : str) (current_depth : Z)
  : option (state * outcome) :=
  crawl_fuel (fuel_for self current_depth) self st url current_depth.

(** [run]: the crawl of the start URL at depth 0 on a new instance; the
    result of the program is [words] and [emails] of the final state. *)
Definition run (self : config) : option (state * outcome) :=
  crawl self new_instance (start_url self) 0.

(** One visit: what [crawl] does to the state for a URL that passes the
    three tests, before it follows the links. *)
Definition visit (self : config) (st : state) (url : str) (current_depth : Z)
  : state :=
  let st1 := begin_request st url current_depth in
  match http_get (map fst (requests st)) url with
  | Parsed p => harvest self p st1
  | _ => st1
  end.

(** [visits self d0 st st']: [st'] comes from [st] by one visit of a new
    URL in scope at a depth between [d0] and [depth self]. *)
Inductive visits (self : config) (d0 : Z) : state -> state -> Prop :=
| visits_intro st url d :
    (d0 <= d <= depth self)%Z ->
    url ∉ visited_urls st ->
    is_valid_url self url = Some true ->
    visits self d0 st (visit self st url d).
End Crawler.

(** What the length filter and the lowercasing need of the tables above
    Latin-1: a code point never lowercases to nothing, only U+0130 lowercases
    to more than one code point, and lowercasing twice changes nothing more. *)
Record lower_regular `{U : Unicode} : Prop := {
  lower_above_nonempty : forall before c after, lower_above before c after <> [];
  lower_above_single : forall before c after,
      c <> 0x130%N -> length (lower_above before c after) = 1%nat;
  str_lower_idem : forall s, str_lower (str_lower s) = str_lower s
}.

(** ** A sample world

    Unicode up to U+024F (Basic Latin to Latin Extended-B; the code points
    above are taken as caseless and outside [\w]), URLs of the plain shape
    [scheme://netloc/path?query#fragment], and a small site. *)

(** The code points of U+0100..U+024F that [str.lower] changes. *)
Definition latin_extended_lower : list (char * str) :=
  ([(0x0100, [0x0101]); (0x0102, [0x0103]); (0x0104, [0x0105]);
   (0x0106, [0x0107]); (0x0108, [0x0109]); (0x010A, [0x010B]);
   (0x010C, [0x010D]); (0x010E, [0x010F]); (0x0110, [0x0111]);
   (0x0112, [0x0113]); (0x0114, [0x0115]); (0x0116, [0x0117]);
   (0x0118, [0x0119]); (0x011A, [0x011B]); (0x011C, [0x011D]);
   (0x011E, [0x011F]); (0x0120, [0x0121]); (0x0122, [0x0123]);
   (0x0124, [0x0125]); (0x0126, [0x0127]); (0x0128, [0x0129]);
   (0x012A, [0x012B]); (0x012C, [0x012D]); (0x012E, [0x012F]);
   (0x0130, [0x0069; 0x0307]); (0x0132, [0x0133]); (0x0134, [0x0135]);
   (0x0136, [0x0137]); (0x0139, [0x013A]); (0x013B, [0x013C]);
   (0x013D, [0x013E]); (0x013F, [0x0140]); (0x0141, [0x0142]);
   (0x0143, [0x0144]); (0x0145, [0x0146]); (0x0147, [0x0148]);
   (0x014A, [0x014B]); (0x014C, [0x014D]); (0x014E, [0x014F]);
   (0x0150, [0x0151]); (0x0152, [0x0153]); (0x0154, [0x0155]);
   (0x0156, [0x0157]); (0x0158, [0x0159]); (0x015A, [0x015B]);
   (0x015C, [0x015D]); (0x015E, [0x015F]); (0x0160, [0x0161]);
   (0x0162, [0x0163]); (0x0164, [0x0165]); (0x0166, [0x0167]);
   (0x0168, [0x0169]); (0x016A, [0x016B]); (0x016C, [0x016D]);
   (0x016E, [0x016F]); (0x0170, [0x0171]); (0x0172, [0x0173]);
   (0x0174, [0x0175]); (0x0176, [0x0177]); (0x0178, [0x00FF]);
   (0x0179, [0x017A]); (0x017B, [0x017C]); (0x017D, [0x017E]);
   (0x0181, [0x0253]); (0x0182, [0x0183]); (0x0184, [0x0185]);
   (0x0186, [0x0254]); (0x0187, [0x0188]); (0x0189, [0x0256]);
   (0x018A, [0x0257]); (0x018B, [0x018C]); (0x018E, [0x01DD]);
   (0x018F, [0x0259]); (0x0190, [0x025B]); (0x0191, [0x0192]);
   (0x0193, [0x0260]); (0x0194, [0x0263]); (0x0196, [0x0269]);
   (0x0197, [0x0268]); (0x0198, [0x0199]); (0x019C, [0x026F]);
   (0x019D, [0x0272]); (0x019F, [0x0275]); (0x01A0, [0x01A1]);
   (0x01A2, [0x01A3]); (0x01A4, [0x01A5]); (0x01A6, [0x0280]);
   (0x01A7, [0x01A8]); (0x01A9, [0x0283]); (0x01AC, [0x01AD]);
   (0x01AE, [0x0288]); (0x01AF, [0x01B0]); (0x01B1, [0x028A]);
   (0x01B2, [0x028B]); (0x01B3, [0x01B4]); (0x01B5, [0x01B6]);
   (0x01B7, [0x0292]); (0x01B8, [0x01B9]); (0x01BC, [0x01BD]);
   (0x01C4, [0x01C6]); (0x01C5, [0x01C6]); (0x01C7, [0x01C9]);
   (0x01C8, [0x01C9]); (0x01CA, [0x01CC]); (0x01CB, [0x01CC]);
   (0x01CD, [0x01CE]); (0x01CF, [0x01D0]); (0x01D1, [0x01D2]);
   (0x01D3, [0x01D4]); (0x01D5, [0x01D6]); (0x01D7, [0x01D8]);
   (0x01D9, [0x01DA]); (0x01DB, [0x01DC]); (0x01DE, [0x01DF]);
   (0x01E0, [0x01E1]); (0x01E2, [0x01E3]); (0x01E4, [0x01E5]);
   (0x01E6, [0x01E7]); (0x01E8, [0x01E9]); (0x01EA, [0x01EB]);
   (0x01EC, [0x01ED]); (0x01EE, [0x01EF]); (0x01F1, [0x01F3]);
   (0x01F2, [0x01F3]); (0x01F4, [0x01F5]); (0x01F6, [0x0195]);
   (0x01F7, [0x01BF]); (0x01F8, [0x01F9]); (0x01FA, [0x01FB]);
   (0x01FC, [0x01FD]); (0x01FE, [0x01FF]); (0x0200, [0x0201]);
   (0x0202, [0x0203]); (0x0204, [0x0205]); (0x0206, [0x0207]);
   (0x0208, [0x0209]); (0x020A, [0x020B]); (0x020C, [0x020D]);
   (0x020E, [0x020F]); (0x0210, [0x0211]); (0x0212, [0x0213]);
   (0x0214, [0x0215]); (0x0216, [0x0217]); (0x0218, [0x0219]);
   (0x021A, [0x021B]); (0x021C, [0x021D]); (0x021E, [0x021F]);
   (0x0220, [0x019E]); (0x0222, [0x0223]); (0x0224, [0x0225]);
   (0x0226, [0x0227]); (0x0228, [0x0229]); (0x022A, [0x022B]);
   (0x022C, [0x022D]); (0x022E, [0x022F]); (0x0230, [0x0231]);
   (0x0232, [0x0233]); (0x023A, [0x2C65]); (0x023B, [0x023C]);
   (0x023D, [0x019A]); (0x023E, [0x2C66]); (0x0241, [0x0242]);
   (0x0243, [0x0180]); (0x0244, [0x0289]); (0x0245, [0x028C]);
   (0x0246, [0x0247]); (0x0248, [0x0249]); (0x024A, [0x024B]);
   (0x024C, [0x024D]); (0x024E, [0x024F])])%N.

Definition lookup_lower (c : char) : str :=
  match List.find (fun e => (fst e =? c)%N) latin_extended_lower with
  | Some e => snd e
  | None => [c]
  end.

(** [str.lower] on one code point up to U+024F. *)
Definition latin_lower_char (c : char) : str :=
  if (c <? 0x100)%N then [latin1_lower c] else lookup_lower c.

Definition latin_unicode : Unicode :=
  {| word_above := fun c => (c <? 0x250)%N;
     lower_above := fun _ c _ => lookup_lower c |}.

(** [urlparse(url).netloc] for plain URLs: what stands between the [//]
    after the scheme and the next [/], [?] or [#]. *)
Definition scheme_char (c : char) : bool :=
  in_range 0x61 0x7A c || in_range 0x41 0x5A c || in_range 0x30 0x39 c
  || (c =? 0x2B)%N || (c =? 0x2D)%N || (c =? 0x2E)%N.

Fixpoint after_scheme (s : str) : option str :=
  match s with
  | [] => None
  | c :: s' =>
      if (c =? 0x3A)%N then Some s'
      else if scheme_char c then after_scheme s' else None
  end.

Fixpoint until_delim (s : str) : str :=
  match s with
  | [] => []
  | c :: s' =>
      if ((c =? 0x2F) || (c =? 0x3F) || (c =? 0x23))%N then []
      else c :: until_delim s'
  end.

Definition plain_netloc (url : str) : option str :=
  let rest :=
    match url with
    | c :: _ =>
        if in_range 0x61 0x7A c || in_range 0x41 0x5A c
        then default url (after_scheme url)
        else url
    | [] => url
    end in
  match rest with
  | 0x2F%N :: 0x2F%N :: r => Some (until_delim r)
  | _ => Some []
  end.

(** A site of five pages; every link is an absolute URL, which [urljoin]
    gives back as it is.  Any other URL fails to load. *)
Definition site (url : str) : response :=
  if bool_decide (url = py "http://site.com/") then
    Parsed {| page_text := py "Hello World, hello crawler: mail root@site.com";
              meta_contents := [py "keywords crawling"; []];
              hrefs := [py "http://site.com/a"; py "http://site.com/broken";
                        py "https://site.com/b#top";
                        py "https://other.example.com/page";
                        py "http://site.com/"] |}
  else if bool_decide (url = py "http://site.com/a") then
    Parsed {| page_text := [0x130; 0x130; 0x130]%N ++ py " alpha page";
              meta_contents := [];
              hrefs := [py "http://site.com/c"; py "http://site.com/"] |}
  else if bool_decide (url = py "https://site.com/b") then
    Parsed {| page_text := py "1" ++ [0xD7]%N ++ py "bc beta page";
              meta_contents := [];
              hrefs := [py "http://site.com/a"] |}
  else if bool_decide (url = py "http://site.com/c") then
    Parsed {| page_text := py "gamma page"; meta_contents := [];
              hrefs := [py "http://site.com/d"] |}
  else if bool_decide (url = py "http://site.com/d") then
    Parsed {| page_text := py "delta page"; meta_contents := []; hrefs := [] |}
  else RequestFailed.

Definition sample_web : Web :=
  {| netloc := plain_netloc;
     urljoin := fun _ href => Some href;
     http_get := fun _ => site |}.

(** The defaults of [__init__] for the sample site. *)
Definition default_cfg : config :=
  {| start_url := py "http://site.com/"; depth := 2; min_word_length := 3;
     max_word_length := None; lowercase := false; with_numbers := false;
     email_file := None; meta := true |}.

(** Words with numbers, of exactly three characters. *)
Definition three_cfg : config :=
  {| start_url := py "http://site.com/"; depth := 2; min_word_length := 3;
     max_word_length := Some 3%Z; lowercase := false; with_numbers := true;
     email_file := None; meta := true |}.

(** The defaults with [--lowercase], and with [-d 0]. *)
Definition lowercase_cfg : config :=
  {| start_url := py "http://site.com/"; depth := 2; min_word_length := 3;
     max_word_length := None; lowercase := true; with_numbers := false;
     email_file := None; meta := true |}.

Definition shallow_cfg : config :=
  {| start_url := py "http://site.com/"; depth := 0; min_word_length := 3;
     max_word_length := None; lowercase := false; with_numbers := false;
     email_file := None; meta := true |}.

(** The defaults with [-m 5]. *)
Definition five_cfg : config :=
  {| start_url := py "http://site.com/"; depth := 2; min_word_length := 5;
     max_word_length := None; lowercase := false; with_numbers := false;
     email_file := None; meta := true |}.

(** The requests a run ends with, and its tally (empty if the run does not
    end). *)
Definition final_requests (r : option (state * outcome)) : list (str * Z) :=
  match r with
  | Some (st, _) => requests st
  | None => []
  end.

Definition final_words (r : option (state * outcome)) : gmap str nat :=
  match r with
  | Some (st, _) => words st
  | None => ∅
  end.

(** Decimal and superscript digits: the code points below U+0100 on which
    [str.isdigit] holds. *)
Definition is_digit (c : char) : bool :=
  in_range 0x30 0x39 c || in_range 0xB2 0xB3 c || (c =? 0xB9)%N.

(** A word [extract_words] returns on some text. *)
Definition tokenized `{U : Unicode} (self : config) (w : str) : Prop :=
  exists text, w ∈ extract_words self text.

(** The marked URLs are the requested ones, each requested once. *)
Definition requests_match (st : state) : Prop :=
  NoDup (map fst (requests st))
  /\ forall u, u ∈ visited_urls st <-> u ∈ map fst (requests st).

(** The length test of lines 66-67, as a proposition on a length. *)
Definition within_lengths (self : config) (n : nat) : Prop :=
  (min_word_length self <= Z.of_nat n)%Z
  /\ forall mx, max_word_length self = Some mx -> (Z.of_nat n <= mx)%Z.

(** ** The command line: [main]

    What [parser.parse_args()] returns. *)
Record args := {
  args_url : str;
  args_depth : Z;
  args_min_word_length : Z;
  args_max_word_length : option Z;
  args_write : option str;
  args_lowercase : bool;
  args_with_numbers : bool;
  args_email : option str;
  args_email_only : bool;
  args_count : bool;
  args_no_meta : bool;
  args_auth : option str;
  args_user_agent : option str
}.

(** [s.split(':', 1)] unpacked into two names: the parts before and after
    the first colon, [None] ([ValueError]) when there is no colon. *)
Fixpoint split_colon (s : str) : option (str * str) :=
  match s with
  | [] => None
  | c :: s' =>
      if (c =? 0x3A)%N then Some ([], s')
      else
        match split_colon s' with
        | Some (username, password) => Some (c :: username, password)
        | None => None
        end
  end.

(** Lines 184-191: the credentials, if any; [None] where [main] prints the
    error and exits. *)
Definition parse_auth (auth : option str) : option (option (str * str)) :=
  if truthy auth then
    match split_colon (default [] auth) with
    | Some up => Some (Some up)
    | None => None
    end
  else Some None.

(** Lines 194-205: the instance [main] creates ([auth] and [user_agent] go
    to the HTTP session). *)
Definition cewl_of_args (a : args) : config :=
  {| start_url := args_url a;
     depth := args_depth a;
     min_word_length := args_min_word_length a;
     max_word_length := args_max_word_length a;
     lowercase := args_lowercase a;
     with_numbers := args_with_numbers a;
     email_file := args_email a;
     meta := negb (args_no_meta a) |}.

(** [sorted]: the stable sort, as an insertion sort; [le x y] tells that
    [x] may stand before [y]. *)
Fixpoint insert_sorted {A} (le : A -> A -> bool) (x : A) (l : list A) : list A :=
  match l with
  | [] => [x]
  | y :: l' => if le x y then x :: l else y :: insert_sorted le x l'
  end.

Definition sorted {A} (le : A -> A -> bool) (l : list A) : list A :=
  foldr (insert_sorted le) [] l.

(** [a <= b] on strings: the order of the first code point that differs, a
    prefix standing first. *)
Fixpoint str_le (a b : str) : bool :=
  match a, b with
  | [], _ => true
  | _ :: _, [] => false
  | x :: a', y :: b' =>
      if (x <? y)%N then true else if (y <? x)%N then false else str_le a' b'
  end.

(** The key [(-x[1], x[0])] of line 227. *)
Definition by_count_then_word (x y : str * nat) : bool :=
  if (snd y <? snd x)%nat then true
  else if (snd x <? snd y)%nat then false
  else str_le (fst x) (fst y).

(** The key of [most_common]: the count, in reverse. *)
Definition by_count (x y : str * nat) : bool := (snd y <=? snd x)%nat.

(** Lines 223-227, [items] being [words.items()]. *)
Definition sorted_words (count : bool) (items : list (str * nat))
  : list (str * nat) :=
  if count then sorted by_count items else sorted by_count_then_word items.

(** [str(n)] for a count. *)
Fixpoint digits (d : Decimal.uint) : str :=
  match d with
  | Decimal.Nil => []
  | Decimal.D0 d => 0x30%N :: digits d
  | Decimal.D1 d => 0x31%N :: digits d
  | Decimal.D2 d => 0x32%N :: digits d
  | Decimal.D3 d => 0x33%N :: digits d
  | Decimal.D4 d => 0x34%N :: digits d
  | Decimal.D5 d => 0x35%N :: digits d
  | Decimal.D6 d => 0x36%N :: digits d
  | Decimal.D7 d => 0x37%N :: digits d
  | Decimal.D8 d => 0x38%N :: digits d
  | Decimal.D9 d => 0x39%N :: digits d
  end.

Definition decimal (n : nat) : str := digits (Nat.to_uint n).

(** Lines 230-235. *)
Definition output_lines (count : bool) (sorted_words : list (str * nat))
  : list str :=
  map (fun wc => if count then fst wc ++ py ", " ++ decimal (snd wc) else fst wc)
      sorted_words.

(** [sep.join(l)] *)
Fixpoint join (sep : str) (l : list str) : str :=
  match l with
  | [] => []
  | [x] => x
  | x :: rest => x ++ sep ++ join sep rest
  end.

(** What [main] writes: the text, and the file it goes to ([None] for the
    standard output). *)
Inductive effect := Wrote (dest : option str) (text : str).

(** How the process ends: the exit code, the texts written in order, and
    the requests sent. *)
Record ending := {
  exit_code : Z;
  effects : list effect;
  requested : list (str * Z)
}.

(** The host of the process.  [write_ok dest text] tells whether opening
    [dest] and writing [text] succeed (they raise otherwise);
    [counter_items c] is [c.items()], the entries of the counter in the order
    of the dictionary. *)
Class Host := {
  write_ok : option str -> str -> bool;
  counter_items : gmap str nat -> list (str * nat)
}.

(** [c.items()] lists the entries of [c]. *)
Definition items_listed `{H : Host} : Prop :=
  forall c, counter_items c ≡ₚ map_to_list c.

(** The text of the e-mail file: lines 213-215. *)
Definition email_text (emails : gset str) : str :=
  flat_map (fun email => email ++ [0x0A%N]) (sorted str_le (elements emails)).

(** The text of the word list: lines 240 and 243 ([print] ends its text
    with a newline). *)
Definition word_text `{H : Host} (count : bool) (words : gmap str nat) : str :=
  join [0x0A%N] (output_lines count (sorted_words count (counter_items words)))
  ++ [0x0A%N].

(** [main], from the parsed arguments on ([None] only if the crawl runs
    out of its bound).  Messages on the standard error are left out. *)
Definition main `{U : Unicode} `{W : Web} `{H : Host} (a : args) : option ending :=
  match parse_auth (args_auth a) with
  | None => Some {| exit_code := 1; effects := []; requested := [] |}
  | Some auth =>
      let cewl := cewl_of_args a in
      match run cewl with
      | None => None
      | Some (st, Raised) =>
          Some {| exit_code := 1; effects := []; requested := requests st |}
      | Some (st, Returned) =>
          let saved :=
            if truthy (args_email a) && negb (bool_decide (emails st = ∅)) then
              if write_ok (args_email a) (email_text (emails st))
              then Some [Wrote (args_email a) (email_text (emails st))]
              else None
            else Some [] in
          match saved with
          | None =>
              Some {| exit_code := 1; effects := []; requested := requests st |}
          | Some saved_effects =>
              if args_email_only a then
                Some {| exit_code := 0; effects := saved_effects;
                        requested := requests st |}
              else
                let dest := if truthy (args_write a) then args_write a else None in
                let text := word_text (args_count a) (words st) in
                if write_ok dest text then
                  Some {| exit_code := 0; effects := saved_effects ++ [Wrote dest text];
                          requested := requests st |}
                else
                  Some {| exit_code := 1; effects := saved_effects;
                          requested := requests st |}
          end
      end
  end.

(** The configuration with another [lowercase] flag. *)
Definition with_lowercase (b : bool) (self : config) : config :=
  {| start_url := start_url self; depth := depth self;
     min_word_length := min_word_length self;
     max_word_length := max_word_length self;
     lowercase := b; with_numbers := with_numbers self;
     email_file := email_file self; meta := meta self |}.

(** The number of times [w] stands in [ws]. *)
Definition occurrences (w : str) (ws : list str) : nat :=
  length (List.filter (fun x => bool_decide (x = w)) ws).

(** A host on which every write succeeds and the dictionary lists its
    entries as the map does, and the arguments of
    [pycewl.py -e emails.txt http://site.com/]. *)
Definition sample_host : Host :=
  {| write_ok := fun _ _ => true; counter_items := map_to_list |}.

Definition sample_args : args :=
  {| args_url := py "http://site.com/"; args_depth := 2;
     args_min_word_length := 3; args_max_word_length := None;
     args_write := None; args_lowercase := false; args_with_numbers := false;
     args_email := Some (py "emails.txt"); args_email_only := false;
     args_count := false; args_no_meta := false; args_auth := None;
     args_user_agent := None |}.

(** The host and port of a network location: what follows its last at
    sign, the user information standing before it ([urllib.parse] reads
    [hostname] and [port] from [netloc.rpartition('@')[2]]). *)
Fixpoint host_port (netloc : str) : str :=
  match netloc with
  | [] => []
  | c :: rest =>
      if bool_decide (0x40%N ∈ rest) then host_port rest
      else if (c =? 0x40)%N then rest else c :: rest
  end.

(** The addresses a run ends with (none if the run does not end). *)
Definition final_emails (r : option (state * outcome)) : gset str :=
  match r with
  | Some (st, _) => emails st
  | None => ∅
  end.

(** The arguments with another [--lowercase]. *)
Definition args_with_lowercase (b : bool) (a : args) : args :=
  {| args_url := args_url a; args_depth := args_depth a;
     args_min_word_length := args_min_word_length a;
     args_max_word_length := args_max_word_length a;
     args_write := args_write a; args_lowercase := b;
     args_with_numbers := args_with_numbers a; args_email := args_email a;
     args_email_only := args_email_only a; args_count := args_count a;
     args_no_meta := args_no_meta a; args_auth := args_auth a;
     args_user_agent := args_user_agent a |}.

(** [-m 5 -x 4]; the defaults on a page that does not load; the sample
    site seen through a [urllib.parse] that rejects an opening bracket
    ([ValueError: Invalid IPv6 URL]); [--auth user] and a start URL with
    such a bracket. *)
Definition crossed_cfg : config :=
  {| start_url := py "http://site.com/"; depth := 2; min_word_length := 5;
     max_word_length := Some 4%Z; lowercase := false; with_numbers := false;
     email_file := None; meta := true |}.

Definition broken_cfg : config :=
  {| start_url := py "http://site.com/broken"; depth := 2; min_word_length := 3;
     max_word_length := None; lowercase := false; with_numbers := false;
     email_file := None; meta := true |}.

Definition bracket_web : Web :=
  {| netloc := fun url =>
       if bool_decide (0x5B%N ∈ url) then None else plain_netloc url;
     urljoin := fun _ href =>
       if bool_decide (0x5B%N ∈ href) then None else Some href;
     http_get := fun _ => site |}.

Definition bad_auth_args : args :=
  {| args_url := py "http://site.com/"; args_depth := 2;
     args_min_word_length := 3; args_max_word_length := None;
     args_write := None; args_lowercase := false; args_with_numbers := false;
     args_email := None; args_email_only := false;
     args_count := false; args_no_meta := false;
     args_auth := Some (py "user"); args_user_agent := None |}.

Definition bad_url_args : args :=
  {| args_url := py "http://[site.com/"; args_depth := 2;
     args_min_word_length := 3; args_max_word_length := None;
     args_write := None; args_lowercase := false; args_with_numbers := false;
     args_email := None; args_email_only := false;
     args_count := false; args_no_meta := false;
     args_auth := None; args_user_agent := None |}.

(** A decidable statement without variables holds if its decision
    procedure computes to true. *)
Ltac decide_by_computing :=
  lazymatch goal with
  | |- ?P => apply (@bool_decide_unpack P _); vm_compute; exact I
  end.

(** * Properties *)

(** ** Characters *)

Lemma below_256 (P : char -> bool) :
  forallb P (map N.of_nat (seq 0 256)) = true ->
  forall c, (c < 0x100)%N -> P c = true.
Proof.
  intros H c Hc. rewrite forallb_forall in H. apply H.
  apply in_map_iff. exists (N.to_nat c). split; [lia|].
  apply in_seq. lia.
Qed.

Lemma letter_class_latin1 c : letter_class c = true -> (c < 0x100)%N.
Proof.
  unfold letter_class, in_range.
  rewrite !orb_true_iff, !andb_true_iff, !N.leb_le. lia.
Qed.

(** Lowercasing a letter of the class gives a letter of the class that
    lowercasing leaves alone, that is no digit. *)
Lemma latin1_lower_letter c :
  letter_class c = true ->
  letter_class (latin1_lower c) = true
  /\ latin1_lower (latin1_lower c) = latin1_lower c
  /\ is_digit (latin1_lower c) = false.
Proof.
  intros Hc. pose proof (letter_class_latin1 c Hc) as Hlt.
  assert (implb (letter_class c)
            (letter_class (latin1_lower c)
             && (latin1_lower (latin1_lower c) =? latin1_lower c)%N
             && negb (is_digit (latin1_lower c))) = true) as H.
  { clear Hc. revert c Hlt. apply below_256. vm_compute. reflexivity. }
  rewrite Hc in H. simpl in H.
  rewrite !andb_true_iff, N.eqb_eq, negb_true_iff in H. tauto.
Qed.

(** The letters of the class outside [\w] are the signs U+00D7 and U+00F7. *)
Lemma letter_not_word `{U : Unicode} c :
  letter_class c = true ->
  is_word_char c = false <-> c = 0xD7%N \/ c = 0xF7%N.
Proof.
  intros Hc. pose proof (letter_class_latin1 c Hc) as Hlt.
  unfold is_word_char. destruct (N.ltb_spec c 0x100) as [_|?]; [|lia].
  assert (implb (letter_class c)
            (eqb (negb (latin1_word c)) ((c =? 0xD7) || (c =? 0xF7))%N) = true) as H.
  { clear Hc. revert c Hlt. apply below_256. vm_compute. reflexivity. }
  rewrite Hc in H. simpl in H. apply eqb_prop in H.
  rewrite <- negb_true_iff, H, orb_true_iff, !N.eqb_eq. tauto.
Qed.

(** ** [str.lower] *)

Section Lower.
Context {U : Unicode}.

Lemma lower_from_latin1 before s :
  Forall (fun c => (c < 0x100)%N) s -> lower_from before s = map latin1_lower s.
Proof.
  intros H. revert before. induction H as [|c s Hc _ IH]; intros before; simpl.
  - reflexivity.
  - apply N.ltb_lt in Hc. rewrite Hc. simpl. by rewrite IH.
Qed.

Lemma str_lower_letters r :
  forallb letter_class r = true -> str_lower r = map latin1_lower r.
Proof.
  intros H. apply lower_from_latin1. apply Forall_forall. intros c Hc.
  apply letter_class_latin1. rewrite forallb_forall in H. apply H.
  by apply list_elem_of_In.
Qed.

Lemma lower_letters_class r :
  forallb letter_class r = true ->
  forallb letter_class (map latin1_lower r) = true.
Proof.
  rewrite !forallb_forall. intros H c [c0 [<- Hc0]]%in_map_iff.
  by apply latin1_lower_letter, H.
Qed.

Lemma lower_letters_idem r :
  forallb letter_class r = true ->
  map latin1_lower (map latin1_lower r) = map latin1_lower r.
Proof.
  rewrite forallb_forall. intros H. rewrite map_map. apply map_ext_in.
  intros c Hc. by apply latin1_lower_letter, H.
Qed.

(** Under [lower_regular], lowercasing never shortens a string, and keeps
    the length of a string without U+0130. *)
Lemma lower_from_length_ge before s :
  lower_regular -> (length s <= length (lower_from before s))%nat.
Proof.
  intros HR. revert before. induction s as [|c s IH]; intros before; simpl.
  - lia.
  - rewrite length_app. specialize (IH (before ++ [c])).
    destruct (c <? 0x100)%N; simpl; [lia|].
    pose proof (lower_above_nonempty HR before c s) as Hne.
    destruct (lower_above before c s); [done|simpl; lia].
Qed.

Lemma lower_from_length_eq before s :
  lower_regular -> 0x130%N ∉ s -> length (lower_from before s) = length s.
Proof.
  intros HR. revert before. induction s as [|c s IH]; intros before Hs; simpl.
  - reflexivity.
  - apply not_elem_of_cons in Hs as [Hc Hs].
    rewrite length_app, (IH _ Hs).
    destruct (c <? 0x100)%N; simpl; [lia|].
    rewrite (lower_above_single HR); [lia|congruence].
Qed.
End Lower.

(** ** The matcher *)

Section Matcher.
Context {U : Unicode}.

(** The character before the position that follows [r], [prev] being the one
    before [r]. *)
Lemma last_after_cons (prev : option char) c r :
  from_option Some (Some c) (last r) = from_option Some prev (last (c :: r)).
Proof. rewrite last_cons. by destruct (last r). Qed.

(** What a successful [greedy] took: a run [r] of the class, of at least
    [n - k] characters, after which the rest of the pattern matched. *)
Lemma greedy_inv cls n cont k prev s m :
  greedy cls n cont k prev s = Some m ->
  exists r t m', s = r ++ t /\ m = r ++ m' /\ forallb cls r = true
    /\ (n <= k + length r)%nat
    /\ cont (from_option Some prev (last r)) t = Some m'.
Proof.
  revert k prev m. induction s as [|c s IH]; intros k prev m; simpl.
  - destruct (Nat.leb_spec n k) as [Hn|]; [|done]. intros Hm.
    exists [], [], m. simpl. repeat split; [lia|done].
  - assert ((if (n <=? k)%nat then cont prev (c :: s) else None) = Some m ->
            exists r t m', c :: s = r ++ t /\ m = r ++ m' /\ forallb cls r = true
              /\ (n <= k + length r)%nat
              /\ cont (from_option Some prev (last r)) t = Some m') as Hstop.
    { destruct (Nat.leb_spec n k) as [Hn|]; [|done]. intros Hm.
      exists [], (c :: s), m. simpl. repeat split; [lia|done]. }
    destruct (cls c) eqn:Hc; [|done].
    destruct (greedy cls n cont (S k) (Some c) s) as [m0|] eqn:Hg; [|done].
    intros [= <-]. destruct (IH _ _ _ Hg) as (r & t & m' & -> & -> & Hr & Hn & Hk).
    exists (c :: r), t, m'. simpl. rewrite Hc, Hr.
    repeat split; [lia|]. by rewrite <- last_after_cons.
Qed.

(** A run of the class up to the end of the text is taken whole when the
    rest of the pattern accepts the end. *)
Lemma greedy_all cls n cont k prev s :
  forallb cls s = true ->
  (n <= k + length s)%nat ->
  cont (from_option Some prev (last s)) [] = Some [] ->
  greedy cls n cont k prev s = Some s.
Proof.
  revert k prev. induction s as [|c s IH]; intros k prev; simpl.
  - intros _ Hn Hk. destruct (Nat.leb_spec n k); [done|lia].
  - intros [Hc Hs]%andb_true_iff Hn Hk. rewrite Hc.
    rewrite IH; [done|done|lia|]. by rewrite (last_after_cons prev).
Qed.

(** What a match of a pattern says of its first item. *)
Lemma match_lit_inv a p prev s m :
  match_here (Lit a :: p) prev s = Some m ->
  exists s' m', s = a :: s' /\ m = a :: m' /\ match_here p (Some a) s' = Some m'.
Proof.
  simpl. destruct s as [|c s']; [done|].
  destruct (N.eqb_spec c a) as [->|]; [|done].
  destruct (match_here p (Some a) s') as [m'|] eqn:Hm; [|done].
  intros [= <-]. by exists s', m'.
Qed.

Lemma match_boundary_inv p prev s m :
  match_here (Boundary :: p) prev s = Some m ->
  at_boundary prev s = true /\ match_here p prev s = Some m.
Proof. simpl. by destruct (at_boundary prev s). Qed.

Lemma match_atleast_inv n cls p prev s m :
  match_here (AtLeast n cls :: p) prev s = Some m ->
  exists r t m', s = r ++ t /\ m = r ++ m' /\ forallb cls r = true
    /\ (n <= length r)%nat
    /\ match_here p (from_option Some prev (last r)) t = Some m'.
Proof.
  intros (r & t & m' & ? & ? & ? & ? & ?)%greedy_inv. by exists r, t, m'.
Qed.

(** A match of the e-mail pattern: a local part, the at sign, a domain, a
    dot and a last label of two characters or more, each of its class. *)
Lemma match_email_inv prev s m :
  match_here email_pattern prev s = Some m ->
  exists loc dom tld,
    m = loc ++ [0x40%N] ++ dom ++ [0x2E%N] ++ tld
    /\ loc <> [] /\ forallb email_local_class loc = true
    /\ dom <> [] /\ forallb email_domain_class dom = true
    /\ (2 <= length tld)%nat /\ forallb email_tld_class tld = true.
Proof.
  unfold email_pattern. intros [_ H0]%match_boundary_inv.
  apply match_atleast_inv in H0 as (loc & t1 & m1 & -> & -> & Hloc & Hn1 & H1).
  apply match_lit_inv in H1 as (t2 & m2 & -> & -> & H2).
  apply match_atleast_inv in H2 as (dom & t3 & m3 & -> & -> & Hdom & Hn2 & H3).
  apply match_lit_inv in H3 as (t4 & m4 & -> & -> & H4).
  apply match_atleast_inv in H4 as (tld & t5 & m5 & -> & -> & Htld & Hn3 & H5).
  apply match_boundary_inv in H5 as [_ [= <-]].
  exists loc, dom, tld. rewrite app_nil_r.
  split; [done|]. split; [by destruct loc; [simpl in Hn1; lia|]|].
  split; [done|]. split; [by destruct dom; [simpl in Hn2; lia|]|].
  done.
Qed.

(** A match of [\b cls+ \b]: a non-empty run of the class between two word
    boundaries. *)
Lemma match_word_inv cls prev s m :
  match_here [Boundary; AtLeast 1 cls; Boundary] prev s = Some m ->
  at_boundary prev s = true
  /\ exists t, s = m ++ t /\ forallb cls m = true /\ m <> []
       /\ at_boundary (last m) t = true.
Proof.
  simpl. destruct (at_boundary prev s) eqn:Hb; [|done]. intros Hg.
  split; [done|].
  apply greedy_inv in Hg as (r & t & m' & -> & -> & Hr & Hn & Hk).
  destruct (at_boundary _ t) eqn:Hb'; [|done]. injection Hk as <-.
  rewrite app_nil_r. exists t. destruct r as [|c r]; [simpl in Hn; lia|].
  repeat split; [done|done|]. rewrite last_cons in *. by destruct (last r).
Qed.

Lemma match_word_all cls s :
  forallb cls s = true -> is_word (head s) = true -> is_word (last s) = true ->
  match_here [Boundary; AtLeast 1 cls; Boundary] None s = Some s.
Proof.
  intros Hs Hh Hl. simpl. unfold at_boundary at 1. simpl. rewrite Hh.
  destruct s as [|c s]; [done|].
  apply greedy_all; [done|simpl; lia|].
  destruct (last (c :: s)) as [x|] eqn:Hx; simpl; [|by rewrite last_cons in Hx; destruct (last s)].
  unfold at_boundary. simpl. simpl in Hl. by rewrite Hl.
Qed.

(** Every element of [findall] is a match at some position of the text. *)
Lemma findall_from_at p prev skip s m :
  m ∈ findall_from p prev skip s ->
  exists pre s', s = pre ++ s'
    /\ match_here p (from_option Some prev (last pre)) s' = Some m.
Proof.
  revert prev skip. induction s as [|c s IH]; intros prev skip; simpl.
  - by intros ?%elem_of_nil.
  - assert (m ∈ findall_from p (Some c) (pred skip) s \/
            (exists k, m ∈ findall_from p (Some c) k s) ->
            exists pre s', c :: s = pre ++ s'
              /\ match_here p (from_option Some prev (last pre)) s' = Some m) as Hlater.
    { intros [H|[k H]]; apply IH in H as (pre & s' & -> & Hm);
        exists (c :: pre), s'; by rewrite <- last_after_cons. }
    destruct skip as [|k]; [|intros H; apply Hlater; by left].
    destruct (match_here p prev (c :: s)) as [m0|] eqn:Hm.
    + intros [->|Hin]%elem_of_cons; [by exists [], (c :: s)|].
      apply Hlater. right. by eexists.
    + intros H. apply Hlater. by left.
Qed.

Lemma findall_from_in p prev skip s m :
  m ∈ findall_from p prev skip s ->
  exists prev' s', match_here p prev' s' = Some m.
Proof. intros (pre & s' & _ & Hm)%findall_from_at. eauto. Qed.

Lemma findall_from_skip p prev skip s :
  (length s <= skip)%nat -> findall_from p prev skip s = [].
Proof.
  revert prev skip. induction s as [|c s IH]; intros prev skip; simpl; [done|].
  intros Hs. destruct skip as [|k]; [lia|]. apply IH. lia.
Qed.

(** A text that is one match gives that match alone. *)
Lemma findall_whole p s :
  s <> [] -> match_here p None s = Some s -> findall p s = [s].
Proof.
  intros Hne Hm. unfold findall. destruct s as [|c s]; [done|].
  simpl findall_from. rewrite Hm. f_equal. apply findall_from_skip. simpl. lia.
Qed.

(** ** [extract_words] *)

Lemma filter_words_spec self ws acc :
  filter_words self ws acc
  = acc ++ map str_lower (List.filter (length_ok self) ws).
Proof.
  revert acc. induction ws as [|w ws IH]; intros acc; simpl.
  - by rewrite app_nil_r.
  - rewrite IH. destruct (length_ok self w); simpl; [|done].
    by rewrite <- app_assoc.
Qed.

Lemma length_ok_within self r :
  length_ok self r = true <-> within_lengths self (length r).
Proof.
  unfold length_ok, within_lengths. rewrite andb_true_iff, Z.leb_le.
  destruct (max_word_length self) as [mx|].
  - rewrite Z.leb_le. split; [intros [? ?]; split; [done|]; by intros ? [= <-]|].
    intros [? H]; split; [done|by apply H].
  - split; [intros [? _]; split; [done|]; by intros ? [=]|tauto].
Qed.

(** A returned word is the lowercase form of a match that passed the
    length test. *)
Lemma extract_words_in self text w :
  w ∈ extract_words self text ->
  exists r prev s, w = str_lower r /\ length_ok self r = true
    /\ match_here (word_pattern self) prev s = Some r.
Proof.
  unfold extract_words. rewrite filter_words_spec. simpl.
  intros (r & -> & Hr)%list_elem_of_fmap.
  apply list_elem_of_In, filter_In in Hr as [Hr Hok].
  apply list_elem_of_In, findall_from_in in Hr as (prev & s & Hm).
  by exists r, prev, s.
Qed.

(** Without numbers a returned word is the lowercase form, letter by
    letter, of a non-empty run of letters of the class. *)
Lemma extract_words_letters self text w :
  with_numbers self = false ->
  w ∈ extract_words self text ->
  exists r, w = map latin1_lower r /\ forallb letter_class r = true
    /\ r <> [] /\ length_ok self r = true.
Proof.
  intros Hn (r & prev & s & -> & Hok & Hm)%extract_words_in.
  unfold word_pattern in Hm. rewrite Hn in Hm.
  apply match_word_inv in Hm as (_ & t & _ & Hr & Hne & _).
  exists r. by rewrite str_lower_letters.
Qed.
End Matcher.

(** ** The accumulators *)

Lemma count_counter_update c ws w :
  (count c w <= count (counter_update c ws) w)%nat.
Proof.
  unfold counter_update. revert c. induction ws as [|x ws IH]; intros c; simpl.
  - lia.
  - etrans; [|apply IH]. unfold count.
    destruct (decide (x = w)) as [->|Hne].
    + rewrite lookup_insert_eq. simpl. lia.
    + by rewrite lookup_insert_ne.
Qed.

Lemma counter_update_key c ws w :
  is_Some (counter_update c ws !! w) -> is_Some (c !! w) \/ w ∈ ws.
Proof.
  unfold counter_update. revert c. induction ws as [|x ws IH]; intros c; simpl.
  - by left.
  - intros [H|H]%IH; [|right; by right].
    destruct (decide (x = w)) as [->|Hne]; [right; by left|].
    rewrite lookup_insert_ne in H by done. by left.
Qed.

Section Accumulators.
Context {U : Unicode} {W : Web}.
Variable self : config.

Lemma count_meta_update cs c w :
  (count c w <= count (meta_update self cs c) w)%nat.
Proof.
  revert c. induction cs as [|content cs IH]; intros c; simpl; [lia|].
  etrans; [|apply IH]. destruct content; [lia|apply count_counter_update].
Qed.

Lemma meta_update_key cs c w :
  is_Some (meta_update self cs c !! w) -> is_Some (c !! w) \/ tokenized self w.
Proof.
  revert c. induction cs as [|content cs IH]; intros c; simpl; [by left|].
  intros [H|H]%IH; [|by right]. destruct content as [|x content]; [by left|].
  apply counter_update_key in H as [H|H]; [by left|right; by eexists].
Qed.

Lemma count_harvest p st w :
  (count (words st) w <= count (words (harvest self p st)) w)%nat.
Proof.
  unfold harvest. simpl. destruct (meta self).
  - etrans; [|apply count_meta_update]. apply count_counter_update.
  - apply count_counter_update.
Qed.

Lemma harvest_key p st w :
  is_Some (words (harvest self p st) !! w) ->
  is_Some (words st !! w) \/ tokenized self w.
Proof.
  unfold harvest. simpl. intros H.
  assert (is_Some (counter_update (words st) (extract_words self (page_text p)) !! w)
          \/ tokenized self w) as [H'|H'].
  { revert H. destruct (meta self); [apply meta_update_key|by left]. }
  - apply counter_update_key in H' as [?|?]; [by left|right; by eexists].
  - by right.
Qed.

Lemma visited_visit st url d :
  visited_urls (visit self st url d) = {[url]} ∪ visited_urls st.
Proof. unfold visit. by destruct (http_get _ url). Qed.

Lemma requests_visit st url d :
  requests (visit self st url d) = requests st ++ [(url, d)].
Proof. unfold visit. by destruct (http_get _ url). Qed.

Lemma count_visit st url d w :
  (count (words st) w <= count (words (visit self st url d)) w)%nat.
Proof.
  unfold visit. destruct (http_get _ url); simpl; [lia|lia|].
  etrans; [|apply count_harvest]. simpl. lia.
Qed.

Lemma visit_key st url d w :
  is_Some (words (visit self st url d) !! w) ->
  is_Some (words st !! w) \/ tokenized self w.
Proof.
  unfold visit. destruct (http_get _ url); simpl; [by left|by left|].
  by intros H%harvest_key.
Qed.

(** ** Termination of [crawl] *)

Lemma crawl_links_total rec url links st :
  (forall s u, is_Some (rec s u)) -> is_Some (crawl_links rec url links st).
Proof.
  intros Hrec. revert st. induction links as [|href links IH]; intros st; simpl.
  - by eexists.
  - destruct (urljoin url href) as [next_url|]; [|by eexists].
    destruct (Hrec st (before_hash next_url)) as [[st' []] ->]; [apply IH|by eexists].
Qed.

Lemma crawl_links_mono rec rec' url links st st' :
  (forall s u r, rec s u = Some r -> rec' s u = Some r) ->
  crawl_links rec url links st = Some st' ->
  crawl_links rec' url links st = Some st'.
Proof.
  intros Hrec. revert st. induction links as [|href links IH]; intros st; simpl.
  - done.
  - destruct (urljoin url href) as [next_url|]; [|done].
    destruct (rec st (before_hash next_url)) as [[s o]|] eqn:Hr; [|done].
    rewrite (Hrec _ _ _ Hr). destruct o; [apply IH|done].
Qed.

Lemma fuel_for_next d :
  (d < depth self)%Z -> Z.to_nat (depth self - d) = fuel_for self (d + 1).
Proof. unfold fuel_for. lia. Qed.

Lemma crawl_fuel_total fuel st url d :
  (fuel_for self d <= fuel)%nat -> is_Some (crawl_fuel fuel self st url d).
Proof.
  revert st url d. induction fuel as [|fuel IH]; intros st url d Hf.
  - unfold fuel_for in Hf. lia.
  - simpl. destruct (_ || _); [by eexists|].
    destruct (is_valid_url self url) as [[]|]; [|by eexists..].
    destruct (http_get _ url) as [| |p]; [by eexists..|].
    destruct (Z.ltb_spec d (depth self)) as [Hd|Hd]; [|by eexists].
    destruct (crawl_links_total
                (fun s next_url => crawl_fuel fuel self s next_url (d + 1))
                url (hrefs p) (harvest self p (begin_request st url d)))
      as [st3 ->]; [|by eexists].
    intros s u. apply IH. rewrite <- fuel_for_next by done.
    unfold fuel_for in Hf. lia.
Qed.

Lemma crawl_fuel_mono fuel fuel' st url d r :
  crawl_fuel fuel self st url d = Some r -> (fuel <= fuel')%nat ->
  crawl_fuel fuel' self st url d = Some r.
Proof.
  revert fuel' st url d r. induction fuel as [|fuel IH]; intros fuel' st url d r; [done|].
  intros Hc Hf. destruct fuel' as [|fuel']; [lia|]. simpl in *.
  destruct (_ || _); [done|].
  destruct (is_valid_url self url) as [[]|]; [|done..].
  destruct (http_get _ url) as [| |p]; [done..|].
  destruct (d <? depth self)%Z; [|done].
  destruct (crawl_links _ url (hrefs p) _) as [st3|] eqn:Hl; [|done].
  erewrite crawl_links_mono; [done| |exact Hl].
  intros s u r' Hr. simpl in Hr. apply IH; [done|lia].
Qed.

(** [crawl] as the program text has it, the recursive call being [crawl]
    itself. *)
Lemma crawl_unfold st url d :
  crawl self st url d =
  if (d >? depth self)%Z || bool_decide (url ∈ visited_urls st)
  then Some (st, Returned)
  else
    match is_valid_url self url with
    | None => Some (st, Raised)
    | Some false => Some (st, Returned)
    | Some true =>
        match http_get (map fst (requests st)) url with
        | Parsed p =>
            if (d <? depth self)%Z then
              match crawl_links (fun s next_url => crawl self s next_url (d + 1))
                      url (hrefs p)
                      (harvest self p (begin_request st url d)) with
              | Some st3 => Some (st3, Returned)
              | None => None
              end
            else Some (harvest self p (begin_request st url d), Returned)
        | _ => Some (begin_request st url d, Returned)
        end
    end.
Proof.
  unfold crawl at 1. unfold fuel_for at 1. simpl.
  destruct (_ || _); [done|].
  destruct (is_valid_url self url) as [[]|]; [|done..].
  destruct (http_get _ url) as [| |p]; [done..|].
  destruct (Z.ltb_spec d (depth self)) as [Hd|Hd]; [|done].
  by rewrite (fuel_for_next d Hd).
Qed.

(** ** A crawl is a sequence of visits *)

Lemma visits_weaken d0 d1 st st' :
  (d0 <= d1)%Z -> rtc (visits self d1) st st' -> rtc (visits self d0) st st'.
Proof.
  intros Hd. apply rtc_subrel. intros s s' [s0 url d ? ? ?].
  constructor; [lia|done..].
Qed.

Lemma crawl_links_visits rec d0 url links st st' :
  (forall s u s' o, rec s u = Some (s', o) -> rtc (visits self d0) s s') ->
  crawl_links rec url links st = Some st' ->
  rtc (visits self d0) st st'.
Proof.
  intros Hrec. revert st. induction links as [|href links IH]; intros st; simpl.
  - by intros [= <-].
  - destruct (urljoin url href) as [next_url|]; [|by intros [= <-]].
    destruct (rec st (before_hash next_url)) as [[s o]|] eqn:Hr; [|done].
    apply Hrec in Hr. destruct o.
    + intros Hl%IH. by etrans.
    + by intros [= <-].
Qed.

Lemma crawl_fuel_visits fuel st url d st' o :
  crawl_fuel fuel self st url d = Some (st', o) ->
  rtc (visits self d) st st'.
Proof.
  revert st url d st' o. induction fuel as [|fuel IH]; intros st url d st' o; [done|].
  simpl. destruct (Z.gtb_spec d (depth self)) as [Hd|Hd]; simpl; [by intros [= <- _]|].
  case_bool_decide as Hv; [by intros [= <- _]|].
  destruct (is_valid_url self url) as [[]|] eqn:Hs; [|by intros [= <- _]..].
  assert (visits self d st (visit self st url d)) as Hstep.
  { constructor; [lia|done..]. }
  unfold visit in Hstep.
  destruct (http_get _ url) as [| |p];
    [intros [= <- _]; by apply rtc_once..|].
  destruct (d <? depth self)%Z; [|intros [= <- _]; by apply rtc_once].
  destruct (crawl_links _ url (hrefs p) _) as [st3|] eqn:Hl; [|done].
  intros [= <- _]. eapply rtc_l; [exact Hstep|].
  eapply crawl_links_visits; [|exact Hl].
  intros s u s' o' Hr. simpl in Hr. apply IH in Hr.
  eapply visits_weaken; [|exact Hr]. lia.
Qed.

Lemma crawl_visits st url d st' o :
  crawl self st url d = Some (st', o) -> rtc (visits self d) st st'.
Proof. apply crawl_fuel_visits. Qed.

(** [run] ends, and its final state comes from the new instance by visits
    at depths 0 to [depth self]. *)
Lemma run_visits :
  exists st o, run self = Some (st, o) /\ rtc (visits self 0) new_instance st.
Proof.
  destruct (crawl_fuel_total (fuel_for self 0) new_instance (start_url self) 0)
    as [[st o] Hr]; [done|].
  exists st, o. split; [done|]. by eapply crawl_fuel_visits.
Qed.
End Accumulators.

(** ** What the visits preserve *)

Section Invariants.
Context {U : Unicode} {W : Web}.
Variable self : config.

(** Induction on a sequence of visits. *)
Lemma visits_rtc_ind d0 (P : state -> Prop) st st' :
  P st ->
  (forall s url d, P s -> (d0 <= d <= depth self)%Z -> url ∉ visited_urls s ->
                   is_valid_url self url = Some true -> P (visit self s url d)) ->
  rtc (visits self d0) st st' -> P st'.
Proof.
  intros H0 Hstep Hrtc. induction Hrtc as [|s s1 s2 [s0 url d Hd Hnew Hok] _ IH]; [done|].
  apply IH. by apply Hstep.
Qed.

Lemma visits_requests_match d0 st st' :
  rtc (visits self d0) st st' -> requests_match st -> requests_match st'.
Proof.
  intros Hrtc Hst. eapply visits_rtc_ind; [exact Hst| |exact Hrtc].
  clear. intros s url d [Hnd Hiff] _ Hnew _. unfold requests_match.
  rewrite requests_visit, map_app. simpl. split.
  - apply NoDup_app. split; [done|]. split; [|apply NoDup_singleton].
    intros u Hu ->%list_elem_of_singleton. by apply Hnew, Hiff.
  - intros u. rewrite visited_visit, elem_of_union, elem_of_singleton.
    rewrite elem_of_app, list_elem_of_singleton, Hiff. tauto.
Qed.

Lemma requests_match_size st :
  requests_match st -> size (visited_urls st) = length (requests st).
Proof.
  intros [Hnd Hiff].
  assert (visited_urls st = list_to_set (map fst (requests st))) as ->.
  { apply set_eq. intros u. by rewrite elem_of_list_to_set. }
  by rewrite size_list_to_set, length_map.
Qed.

Lemma requests_match_new : requests_match new_instance.
Proof.
  split; simpl; [constructor|]. intros u.
  split; [by intros ?%not_elem_of_empty|by intros ?%elem_of_nil].
Qed.

Lemma visits_depths d0 st st' u d :
  rtc (visits self d0) st st' -> (u, d) ∈ requests st' ->
  (u, d) ∈ requests st \/ (d0 <= d <= depth self)%Z.
Proof.
  intros Hrtc.
  eapply (visits_rtc_ind d0 (fun s => (u, d) ∈ requests s -> _)); [by left| |exact Hrtc].
  intros s url d1 IH Hd _ _.
  rewrite requests_visit, elem_of_app, list_elem_of_singleton.
  intros [H|[= -> ->]]; [by apply IH|by right].
Qed.

Lemma visits_scope d0 st st' u :
  rtc (visits self d0) st st' -> u ∈ visited_urls st' ->
  u ∈ visited_urls st \/ is_valid_url self u = Some true.
Proof.
  intros Hrtc.
  eapply (visits_rtc_ind d0 (fun s => u ∈ visited_urls s -> _)); [by left| |exact Hrtc].
  intros s url d1 IH _ _ Hok.
  rewrite visited_visit, elem_of_union, elem_of_singleton.
  intros [->|H]; [by right|by apply IH].
Qed.

Lemma visits_keys d0 st st' w :
  rtc (visits self d0) st st' -> is_Some (words st' !! w) ->
  is_Some (words st !! w) \/ tokenized self w.
Proof.
  intros Hrtc.
  eapply (visits_rtc_ind d0 (fun s => is_Some (words s !! w) -> _)); [by left| |exact Hrtc].
  intros s url d1 IH _ _ _ [H|H]%visit_key; [by apply IH|by right].
Qed.

Lemma visits_counts d0 st st' w :
  rtc (visits self d0) st st' -> (count (words st) w <= count (words st') w)%nat.
Proof.
  intros Hrtc.
  eapply (visits_rtc_ind d0 (fun s => (count (words st) w <= count (words s) w)%nat));
    [done| |exact Hrtc].
  intros s url d1 IH _ _ _. etrans; [exact IH|apply count_visit].
Qed.

(** Every visit puts one more URL in [visited_urls]. *)
Lemma visits_grow d0 st st' :
  rtc (visits self d0) st st' ->
  visited_urls st ⊆ visited_urls st'
  /\ (size (visited_urls st') + length (requests st)
      = size (visited_urls st) + length (requests st'))%nat.
Proof.
  intros Hrtc.
  eapply (visits_rtc_ind d0 (fun s => visited_urls st ⊆ visited_urls s
            /\ (size (visited_urls s) + length (requests st)
                = size (visited_urls st) + length (requests s))%nat));
    [done| |exact Hrtc].
  intros s url d1 [IH1 IH2] _ Hnew _.
  rewrite visited_visit, requests_visit, length_app. simpl. split.
  - set_solver.
  - rewrite size_union by set_solver. rewrite size_singleton. lia.
Qed.
End Invariants.

(** ** The sample world *)

Lemma latin_extended_lower_ok e :
  In e latin_extended_lower ->
  snd e <> []
  /\ (fst e <> 0x130%N -> length (snd e) = 1%nat)
  /\ flat_map latin_lower_char (snd e) = snd e.
Proof.
  assert (forallb
            (fun e => negb (length (snd e) =? 0)%nat
                      && ((fst e =? 0x130)%N || (length (snd e) =? 1)%nat)
                      && bool_decide (flat_map latin_lower_char (snd e) = snd e))
            latin_extended_lower = true) as H by (vm_compute; reflexivity).
  rewrite forallb_forall in H. intros [[H1 H2]%andb_true_iff H3]%H%andb_true_iff.
  apply negb_true_iff, Nat.eqb_neq in H1. apply bool_decide_eq_true in H3.
  apply orb_true_iff in H2. rewrite N.eqb_eq, Nat.eqb_eq in H2.
  repeat split; [by destruct (snd e)|tauto|done].
Qed.

Lemma lookup_lower_cases c :
  lookup_lower c = [c]
  \/ exists e, In e latin_extended_lower /\ fst e = c /\ lookup_lower c = snd e.
Proof.
  unfold lookup_lower.
  destruct (List.find _ latin_extended_lower) as [e|] eqn:He; [right|by left].
  apply find_some in He as [Hin Hc%N.eqb_eq]. by exists e.
Qed.

Lemma latin_lower_char_fixed c :
  flat_map latin_lower_char (latin_lower_char c) = latin_lower_char c.
Proof.
  unfold latin_lower_char at 2 3. destruct (N.ltb_spec c 0x100) as [Hc|Hc].
  - assert ((latin1_lower c <? 0x100)%N
            && (latin1_lower (latin1_lower c) =? latin1_lower c)%N = true) as H.
    { revert c Hc. apply below_256. vm_compute. reflexivity. }
    apply andb_true_iff in H as [H1 H2%N.eqb_eq].
    simpl. unfold latin_lower_char. by rewrite H1, H2.
  - destruct (lookup_lower_cases c) as [Heq|(e & Hin & _ & Heq)].
    + rewrite Heq. simpl. unfold latin_lower_char.
      destruct (N.ltb_spec c 0x100) as [?|_]; [lia|]. by rewrite Heq.
    + rewrite Heq. by apply latin_extended_lower_ok.
Qed.

Lemma latin_lower_from before s :
  @lower_from latin_unicode before s = flat_map latin_lower_char s.
Proof.
  revert before. induction s as [|c s IH]; intros before; simpl; [done|].
  by rewrite IH.
Qed.

Lemma latin_unicode_regular : @lower_regular latin_unicode.
Proof.
  split; simpl.
  - intros _ c _. destruct (lookup_lower_cases c) as [->|(e & Hin & _ & ->)]; [done|].
    by apply latin_extended_lower_ok.
  - intros _ c _ Hc. destruct (lookup_lower_cases c) as [->|(e & Hin & <- & ->)]; [done|].
    by apply latin_extended_lower_ok.
  - intros s. unfold str_lower. rewrite !latin_lower_from.
    induction s as [|c s IH]; simpl; [done|].
    by rewrite flat_map_app, IH, latin_lower_char_fixed.
Qed.

(** * The claims *)

(** ** The tokenizer *)

Section TokenizerClaims.
Context {U : Unicode}.

(** What the length filter and the lowercasing give for a returned word. *)
Lemma tokenized_spec self w :
  tokenized self w ->
  exists r, w = str_lower r /\ within_lengths self (length r)
    /\ (with_numbers self = false ->
        within_lengths self (length w) /\ str_lower w = w)
    /\ (lower_regular ->
        (min_word_length self <= Z.of_nat (length w))%Z /\ str_lower w = w
        /\ (0x130%N ∉ r -> within_lengths self (length w))).
Proof.
  intros [text (r & prev & s & -> & Hok & Hm)%extract_words_in].
  exists r. apply length_ok_within in Hok as Hwithin.
  split; [done|]. split; [done|]. split.
  - intros Hn. unfold word_pattern in Hm. rewrite Hn in Hm.
    apply match_word_inv in Hm as (_ & t & _ & Hr & _ & _).
    rewrite (str_lower_letters r Hr).
    rewrite str_lower_letters by by apply lower_letters_class.
    by rewrite length_map, lower_letters_idem.
  - intros HR. split; [|split].
    + pose proof (lower_from_length_ge [] r HR). destruct Hwithin. unfold str_lower. lia.
    + apply (str_lower_idem HR).
    + intros Hr. unfold str_lower. by rewrite lower_from_length_eq.
Qed.

(** C7: [extract_words] is a function of the text and of the fields
    [with_numbers], [min_word_length] and [max_word_length] alone, so that
    two configurations that differ in [lowercase] only (or two calls with the
    same configuration) give the same sequence of words; and every word it
    gives is a lowercased match, whatever the flag. *)
Theorem extract_words_ignores_lowercase (self self' : config) (text : str) :
  with_numbers self = with_numbers self' ->
  min_word_length self = min_word_length self' ->
  max_word_length self = max_word_length self' ->
  extract_words self text = extract_words self' text
  /\ forall w, w ∈ extract_words self text ->
       exists r, r ∈ findall (word_pattern self) text /\ w = str_lower r.
Proof.
  intros Hn Hmin Hmax. split.
  - unfold extract_words, word_pattern. rewrite Hn. simpl.
    rewrite !filter_words_spec. simpl. f_equal. apply filter_ext. intros r.
    unfold length_ok. by rewrite Hmin, Hmax.
  - unfold extract_words. rewrite filter_words_spec. simpl.
    intros w (r & -> & Hr)%list_elem_of_fmap.
    apply list_elem_of_In, filter_In in Hr as [Hr _].
    exists r. split; [by apply list_elem_of_In|done].
Qed.

(** C8: without numbers, every character of every returned word is a letter
    of the class of the pattern and no digit; the token abc123 is rejected
    outright. *)
Theorem no_digit_without_numbers (self : config) :
  with_numbers self = false ->
  (forall text w c, w ∈ extract_words self text -> c ∈ w ->
                    letter_class c = true /\ is_digit c = false)
  /\ extract_words self (py "abc123") = [].
Proof.
  intros Hn. split.
  - intros text w c (r & -> & Hr & _ & _)%extract_words_letters Hc; [|done].
    apply list_elem_of_fmap in Hc as (c0 & -> & Hc0).
    rewrite forallb_forall in Hr. apply list_elem_of_In, Hr in Hc0.
    destruct (latin1_lower_letter c0 Hc0) as (? & _ & ?). done.
  - unfold extract_words, word_pattern. rewrite Hn. vm_compute. reflexivity.
Qed.

(** C9: on the text of the example, [extract_emails] returns the one
    address a.b+test@example.co.uk; and whatever the text, a returned
    address is a local part, the at sign, a domain, a dot and a last label
    of two characters or more, each within its class of the pattern. *)
Theorem extract_emails_example :
  extract_emails (py "contact me at a.b+test@example.co.uk please")
  = [py "a.b+test@example.co.uk"]
  /\ forall text e, e ∈ extract_emails text ->
       exists loc dom tld,
         e = loc ++ [0x40%N] ++ dom ++ [0x2E%N] ++ tld
         /\ loc <> [] /\ forallb email_local_class loc = true
         /\ dom <> [] /\ forallb email_domain_class dom = true
         /\ (2 <= length tld)%nat /\ forallb email_tld_class tld = true.
Proof.
  split; [vm_compute; reflexivity|].
  intros text e (prev & s & Hm)%findall_from_in. by eapply match_email_inv.
Qed.

(** Without numbers, a returned word is a fixed point of the tokenizer
    exactly when it begins and ends with a word character (every letter of
    the class but the signs U+00D7 and U+00F7 is one). *)
Lemma word_fixed_point (self : config) (text w : str) :
  with_numbers self = false ->
  w ∈ extract_words self text ->
  extract_words self w = [w]
  <-> is_word (head w) = true /\ is_word (last w) = true.
Proof.
  intros Hn (r & -> & Hr & Hne & Hok)%extract_words_letters; [|done].
  pose proof (lower_letters_class r Hr) as Hw.
  set (w := map latin1_lower r) in *. split.
  - intros Hfix.
    assert (w ∈ extract_words self w) as Hin by (rewrite Hfix; apply list_elem_of_here).
    unfold extract_words in Hin. rewrite filter_words_spec in Hin. simpl in Hin.
    apply list_elem_of_fmap in Hin as (r' & Hw' & Hr').
    apply list_elem_of_In, filter_In in Hr' as [Hr' _].
    apply list_elem_of_In, findall_from_at in Hr' as (pre & s' & Hsplit & Hm).
    unfold word_pattern in Hm. rewrite Hn in Hm.
    apply match_word_inv in Hm as (Hb & t & -> & Hcls & _ & Hb').
    rewrite (str_lower_letters r' Hcls) in Hw'.
    assert (length w = length r') as Hlen by (by rewrite Hw', length_map).
    rewrite Hsplit, !length_app in Hlen.
    destruct pre; [|simpl in Hlen; lia]. destruct t; [|simpl in Hlen; lia].
    simpl in Hsplit. rewrite app_nil_r in Hsplit. subst r'.
    unfold at_boundary in Hb, Hb'. simpl in Hb, Hb'. rewrite app_nil_r in Hb.
    split; [done|]. by rewrite xorb_false_r in Hb'.
  - intros [Hh Hl]. unfold extract_words, word_pattern. rewrite Hn. simpl.
    rewrite findall_whole.
    + simpl. unfold length_ok in *. unfold w at 1 2. rewrite length_map, Hok. simpl.
      unfold w. by rewrite str_lower_letters, lower_letters_idem.
    + unfold w. by destruct r.
    + by apply match_word_all.
Qed.
End TokenizerClaims.

(** ** The crawler *)

Section CrawlerClaims.
Context {U : Unicode} {W : Web}.

Lemma crawl_seen self st url d :
  url ∈ visited_urls st -> crawl self st url d = Some (st, Returned).
Proof.
  intros Hv. rewrite crawl_unfold.
  rewrite (bool_decide_eq_true_2 _ Hv). by rewrite orb_true_r.
Qed.

Lemma crawl_too_deep self st url d :
  (depth self < d)%Z -> crawl self st url d = Some (st, Returned).
Proof.
  intros Hd. rewrite crawl_unfold.
  by destruct (Z.gtb_spec d (depth self)) as [_|?]; [|lia].
Qed.

(** What [crawl] does for a URL that passes the three tests at the last
    depth, or whose page does not load: the visit, and nothing more. *)
Lemma crawl_visit_only self st url d :
  (d <= depth self)%Z -> url ∉ visited_urls st ->
  is_valid_url self url = Some true ->
  d = depth self \/ (forall p, http_get (map fst (requests st)) url <> Parsed p) ->
  crawl self st url d = Some (visit self st url d, Returned).
Proof.
  intros Hd Hv Hok Hlast. rewrite crawl_unfold. unfold visit.
  destruct (Z.gtb_spec d (depth self)) as [?|_]; [lia|].
  rewrite (bool_decide_eq_false_2 _ Hv), Hok. simpl.
  destruct (http_get _ url) as [| |p]; [done..|].
  destruct Hlast as [->|Hp]; [|by destruct (Hp p)].
  by rewrite Z.ltb_irrefl.
Qed.

(** C1: a URL already in [visited_urls] makes [crawl] return at once; a
    request is sent only for a URL that the same step puts in
    [visited_urls]; and when the run ends no URL was requested twice, the
    URLs of [visited_urls] are the requested ones, and there are as many of
    them as requests. *)
Theorem no_url_fetched_twice (self : config) :
  (forall st url d, url ∈ visited_urls st ->
                    crawl self st url d = Some (st, Returned))
  /\ (forall st url d,
        visited_urls (visit self st url d) = {[url]} ∪ visited_urls st
        /\ requests (visit self st url d) = requests st ++ [(url, d)])
  /\ exists st o, run self = Some (st, o)
       /\ NoDup (map fst (requests st))
       /\ (forall u, u ∈ visited_urls st <-> u ∈ map fst (requests st))
       /\ size (visited_urls st) = length (requests st).
Proof.
  split; [apply crawl_seen|]. split.
  - intros st url d. by rewrite visited_visit, requests_visit.
  - destruct (run_visits self) as (st & o & Hrun & Hrtc). exists st, o.
    pose proof (visits_requests_match self 0 _ _ Hrtc requests_match_new) as Hm.
    split; [done|]. split; [apply Hm|]. split; [apply Hm|].
    by apply requests_match_size.
Qed.

Lemma is_valid_url_start self n :
  netloc (start_url self) = Some n ->
  is_valid_url self (start_url self) = Some true.
Proof. intros Hn. unfold is_valid_url. rewrite Hn. by rewrite bool_decide_eq_true_2. Qed.

(** C2: beyond [depth self] a call of [crawl] changes nothing (no request);
    at depth [depth self] it does the visit of the URL at most, whatever the
    links of the page; all requests of a crawl started at depth [d] are at
    depths from [d] to [depth self]; and with [depth self = 0] the run
    requests the start URL and nothing else. *)
Theorem depth_bound (self : config) :
  (forall st url d, (depth self < d)%Z ->
                    crawl self st url d = Some (st, Returned))
  /\ (forall st url, exists st' o, crawl self st url (depth self) = Some (st', o)
        /\ (st' = st \/ st' = visit self st url (depth self)))
  /\ (forall st url d st' o, crawl self st url d = Some (st', o) ->
        forall u d', (u, d') ∈ requests st' ->
                     (u, d') ∈ requests st \/ (d <= d' <= depth self)%Z)
  /\ (exists st o, run self = Some (st, o)
        /\ forall u d, (u, d) ∈ requests st -> (0 <= d <= depth self)%Z)
  /\ (depth self = 0%Z ->
      exists st o, run self = Some (st, o)
        /\ requests st = match netloc (start_url self) with
                         | Some _ => [(start_url self, 0%Z)]
                         | None => []
                         end).
Proof.
  split; [apply crawl_too_deep|]. split; [|split; [|split]].
  - intros st url. destruct (decide (url ∈ visited_urls st)) as [Hv|Hv].
    { exists st, Returned. split; [by apply crawl_seen|by left]. }
    destruct (is_valid_url self url) as [[]|] eqn:Hok.
    + exists (visit self st url (depth self)), Returned. split; [|by right].
      apply crawl_visit_only; [lia|done|done|by left].
    + exists st, Returned. split; [|by left]. rewrite crawl_unfold.
      destruct (Z.gtb_spec (depth self) (depth self)) as [?|_]; [lia|].
      by rewrite (bool_decide_eq_false_2 _ Hv), Hok.
    + exists st, Raised. split; [|by left]. rewrite crawl_unfold.
      destruct (Z.gtb_spec (depth self) (depth self)) as [?|_]; [lia|].
      by rewrite (bool_decide_eq_false_2 _ Hv), Hok.
  - intros st url d st' o Hc u d'. eapply visits_depths. by eapply crawl_visits.
  - destruct (run_visits self) as (st & o & Hrun & Hrtc). exists st, o.
    split; [done|]. intros u d [Hin|Hd]%(visits_depths self 0 _ _ _ _ Hrtc); [|done].
    by apply elem_of_nil in Hin.
  - intros H0. unfold run.
    destruct (netloc (start_url self)) as [n|] eqn:Hn.
    + exists (visit self new_instance (start_url self) 0), Returned.
      split; [|by rewrite requests_visit].
      apply crawl_visit_only; [lia|apply not_elem_of_empty| |left; lia].
      by eapply is_valid_url_start.
    + exists new_instance, Raised. split; [|done]. rewrite crawl_unfold.
      destruct (Z.gtb_spec 0 (depth self)) as [?|_]; [lia|].
      rewrite bool_decide_eq_false_2 by apply not_elem_of_empty.
      unfold is_valid_url. by rewrite Hn.
Qed.

(** Every URL in [visited_urls] when the run ends passed the test of
    [is_valid_url]. *)
Lemma run_visited_valid (self : config) :
  exists st o, run self = Some (st, o)
    /\ forall u, u ∈ visited_urls st -> is_valid_url self u = Some true.
Proof.
  destruct (run_visits self) as (st & o & Hrun & Hrtc). exists st, o.
  split; [done|]. intros u [Hin|Hok]%(visits_scope self 0 _ _ _ Hrtc); [|done].
  by apply not_elem_of_empty in Hin.
Qed.

(** C4, amended: when the run ends, every key of [words] is the lowercase
    form of a match whose length passed the filter; without numbers the key
    itself passes the filter and is its own lowercase form; with numbers the
    key is at least [min_word_length] long and its own lowercase form, and
    no longer than [max_word_length] when the match has no U+0130 (Unicode
    above Latin-1 being regular); and a crawl never lowers a count, and puts
    in [words] no key but words that [extract_words] returns. *)
Theorem tally_keys (self : config) :
  (exists st o, run self = Some (st, o)
     /\ forall w, is_Some (words st !! w) ->
         exists r, w = str_lower r /\ within_lengths self (length r)
           /\ (with_numbers self = false ->
               within_lengths self (length w) /\ str_lower w = w)
           /\ (lower_regular ->
               (min_word_length self <= Z.of_nat (length w))%Z
               /\ str_lower w = w
               /\ (0x130%N ∉ r -> within_lengths self (length w))))
  /\ (forall st url d st' o w, crawl self st url d = Some (st', o) ->
        (count (words st) w <= count (words st') w)%nat
        /\ (is_Some (words st' !! w) ->
            is_Some (words st !! w) \/ exists text, w ∈ extract_words self text)).
Proof.
  split.
  - destruct (run_visits self) as (st & o & Hrun & Hrtc). exists st, o.
    split; [done|]. intros w [Hin|Htok]%(visits_keys self 0 _ _ _ Hrtc).
    + simpl in Hin. rewrite lookup_empty in Hin. by destruct Hin.
    + by apply tokenized_spec.
  - intros st url d st' o w Hc%crawl_visits. split.
    + by eapply visits_counts.
    + by eapply visits_keys.
Qed.

(** C5: when the page of a URL that passes the three tests does not load
    or does not parse, [crawl] returns with the URL in [visited_urls], the
    request logged and [words] and [emails] as they were; a later call for
    the same URL returns at once, and the loop over the links of the
    referring page goes on with the next link. *)
Theorem failed_fetch (self : config) (st : state) (url : str) (d : Z) :
  (d <= depth self)%Z ->
  url ∉ visited_urls st ->
  is_valid_url self url = Some true ->
  (forall p, http_get (map fst (requests st)) url <> Parsed p) ->
  let st1 := begin_request st url d in
  crawl self st url d = Some (st1, Returned)
  /\ words st1 = words st /\ emails st1 = emails st
  /\ url ∈ visited_urls st1
  /\ requests st1 = requests st ++ [(url, d)]
  /\ (forall st2 d', visited_urls st1 ⊆ visited_urls st2 ->
                     crawl self st2 url d' = Some (st2, Returned))
  /\ (forall base href next_url rest,
        urljoin base href = Some next_url -> before_hash next_url = url ->
        crawl_links (fun s u => crawl self s u d) base (href :: rest) st
        = crawl_links (fun s u => crawl self s u d) base rest st1).
Proof.
  intros Hd Hv Hok Hfail st1.
  assert (crawl self st url d = Some (st1, Returned)) as Hc.
  { rewrite crawl_visit_only by (done || by right). unfold visit.
    destruct (http_get _ url) as [| |p] eqn:Hg; [done..|by destruct (Hfail p)]. }
  assert (url ∈ visited_urls st1) as Hin by (simpl; set_solver).
  do 5 (split; [done|]). split.
  - intros st2 d' Hsub. apply crawl_seen. by apply Hsub.
  - intros base href next_url rest Hj Hb. simpl. by rewrite Hj, Hb, Hc.
Qed.

(** C6: every call of [crawl] returns: calls nest [fuel_for self d] deep at
    most and any larger bound gives the same result; [visited_urls] only
    grows, by exactly one URL for each request; and every request is at a
    depth from [d] to [depth self]. *)
Theorem crawl_terminates (self : config) (st : state) (url : str) (d : Z) :
  exists st' o, crawl self st url d = Some (st', o)
    /\ (forall fuel, (fuel_for self d <= fuel)%nat ->
                     crawl_fuel fuel self st url d = Some (st', o))
    /\ visited_urls st ⊆ visited_urls st'
    /\ (size (visited_urls st') + length (requests st)
        = size (visited_urls st) + length (requests st'))%nat
    /\ (forall u d', (u, d') ∈ requests st' ->
                     (u, d') ∈ requests st \/ (d <= d' <= depth self)%Z).
Proof.
  destruct (crawl_fuel_total self (fuel_for self d) st url d) as [[st' o] Hc]; [done|].
  exists st', o. pose proof (crawl_fuel_visits self _ _ _ _ _ _ Hc) as Hrtc.
  split; [exact Hc|]. split; [|split; [|split]].
  - intros fuel Hf. by eapply crawl_fuel_mono.
  - by eapply visits_grow.
  - by eapply visits_grow.
  - intros u d'. by apply visits_depths.
Qed.
End CrawlerClaims.

(** * The claims on the sample world *)

Section Sample.
#[local] Existing Instance latin_unicode.
#[local] Existing Instance sample_web.

(** The tokenizer and the crawler at work. *)
Example quick_brown_fox :
  extract_words five_cfg (py "the quick brown fox") = [py "quick"; py "brown"].
Proof. vm_compute. reflexivity. Qed.

Example accents_and_case :
  extract_words default_cfg ([0xC9]%N ++ py "t" ++ [0xC9]%N ++ py " De l'eau")
  = [[0xE9]%N ++ py "t" ++ [0xE9]%N; py "eau"].
Proof. vm_compute. reflexivity. Qed.

Example sample_run_requests :
  final_requests (run default_cfg)
  = [(py "http://site.com/", 0%Z); (py "http://site.com/a", 1%Z);
     (py "http://site.com/c", 2%Z); (py "http://site.com/broken", 1%Z);
     (py "https://site.com/b", 1%Z)].
Proof. vm_compute. reflexivity. Qed.

Lemma no_url_fetched_twice_witness :
  let url := py "http://site.com/" in
  let st := visit default_cfg new_instance url 0 in
  url ∈ visited_urls st
  /\ crawl default_cfg st url 1 = Some (st, Returned).
Proof.
  intros url st.
  assert (url ∈ visited_urls st) as Hin.
  { decide_by_computing. }
  split; [exact Hin|].
  exact (proj1 (no_url_fetched_twice default_cfg) st url 1%Z Hin).
Defined.

Lemma depth_bound_witness :
  depth shallow_cfg = 0%Z
  /\ exists st o, run shallow_cfg = Some (st, o)
       /\ requests st = [(py "http://site.com/", 0%Z)].
Proof.
  split; [reflexivity|].
  destruct (depth_bound shallow_cfg) as (_ & _ & _ & _ & H).
  destruct (H eq_refl) as (st & o & Hrun & Hreq).
  exists st, o. split; [exact Hrun|]. rewrite Hreq. vm_compute. reflexivity.
Defined.

(** C3: the code breaks the claim on a URL with user information.  For the
    start URL http://site.com/ and the URL http://user@site.com/,
    [urlparse] gives the network locations site.com and user@site.com:
    host and port are the same (and so is the domain, which the docstring
    of [is_valid_url] names), yet [is_valid_url] answers false, where a URL
    of another scheme and path on the same host is accepted. *)
Theorem userinfo_out_of_scope :
  netloc (start_url default_cfg) = Some (py "site.com")
  /\ netloc (py "http://user@site.com/") = Some (py "user@site.com")
  /\ host_port (py "user@site.com") = host_port (py "site.com")
  /\ is_valid_url default_cfg (py "http://user@site.com/") = Some false
  /\ is_valid_url default_cfg (py "https://site.com/b?page=2") = Some true.
Proof. repeat split; vm_compute; reflexivity. Qed.

Lemma tally_keys_witness :
  with_numbers default_cfg = false
  /\ (exists st o, run default_cfg = Some (st, o)
        /\ forall w, is_Some (words st !! w) ->
                     within_lengths default_cfg (length w) /\ str_lower w = w)
  /\ (exists st o, run three_cfg = Some (st, o)
        /\ forall w, is_Some (words st !! w) ->
                     (3 <= Z.of_nat (length w))%Z /\ str_lower w = w).
Proof.
  split; [reflexivity|]. split.
  - destruct (proj1 (tally_keys default_cfg)) as (st & o & Hrun & Hkeys).
    exists st, o. split; [exact Hrun|]. intros w Hw.
    destruct (Hkeys w Hw) as (r & _ & _ & Hplain & _). exact (Hplain eq_refl).
  - destruct (proj1 (tally_keys three_cfg)) as (st & o & Hrun & Hkeys).
    exists st, o. split; [exact Hrun|]. intros w Hw.
    destruct (Hkeys w Hw) as (r & _ & _ & _ & Hreg).
    destruct (Hreg latin_unicode_regular) as (Hmin & Hlow & _).
    split; [exact Hmin|exact Hlow].
Defined.

Lemma failed_fetch_witness :
  let url := py "http://site.com/broken" in
  (1 <= depth default_cfg)%Z
  /\ (url ∉ visited_urls new_instance)
  /\ is_valid_url default_cfg url = Some true
  /\ (forall p, http_get (map fst (requests new_instance)) url <> Parsed p)
  /\ crawl default_cfg new_instance url 1
     = Some (begin_request new_instance url 1, Returned).
Proof.
  intros url.
  assert (1 <= depth default_cfg)%Z as H1 by (simpl; lia).
  assert (url ∉ visited_urls new_instance) as H2 by apply not_elem_of_empty.
  assert (is_valid_url default_cfg url = Some true) as H3
    by (vm_compute; reflexivity).
  assert (forall p, http_get (map fst (requests new_instance)) url <> Parsed p) as H4.
  { intros p. vm_compute. discriminate. }
  do 4 (split; [assumption|]).
  exact (proj1 (failed_fetch default_cfg new_instance url 1%Z H1 H2 H3 H4)).
Defined.

Lemma crawl_terminates_witness :
  (fuel_for default_cfg 0 <= 10)%nat
  /\ exists st o,
       crawl default_cfg new_instance (start_url default_cfg) 0 = Some (st, o)
       /\ crawl_fuel 10 default_cfg new_instance (start_url default_cfg) 0
          = Some (st, o).
Proof.
  assert (fuel_for default_cfg 0 <= 10)%nat as Hf by (vm_compute; lia).
  split; [exact Hf|].
  destruct (crawl_terminates default_cfg new_instance (start_url default_cfg) 0)
    as (st & o & Hc & Hfuel & _).
  exists st, o. split; [exact Hc|exact (Hfuel 10%nat Hf)].
Defined.

Lemma extract_words_ignores_lowercase_witness :
  lowercase default_cfg <> lowercase lowercase_cfg
  /\ with_numbers default_cfg = with_numbers lowercase_cfg
  /\ min_word_length default_cfg = min_word_length lowercase_cfg
  /\ max_word_length default_cfg = max_word_length lowercase_cfg
  /\ extract_words default_cfg (py "Hello World")
     = extract_words lowercase_cfg (py "Hello World").
Proof.
  split; [discriminate|]. do 3 (split; [reflexivity|]).
  exact (proj1 (extract_words_ignores_lowercase default_cfg lowercase_cfg
                  (py "Hello World") eq_refl eq_refl eq_refl)).
Defined.

Lemma no_digit_without_numbers_witness :
  with_numbers default_cfg = false
  /\ py "year" ∈ extract_words default_cfg (py "year 2024, route66")
  /\ forall c, c ∈ py "year" -> letter_class c = true /\ is_digit c = false.
Proof.
  split; [reflexivity|].
  assert (py "year" ∈ extract_words default_cfg (py "year 2024, route66")) as Hin.
  { decide_by_computing. }
  split; [exact Hin|]. intros c.
  exact (proj1 (no_digit_without_numbers default_cfg eq_refl) _ _ c Hin).
Defined.

(** C4 as stated fails: with numbers and [max_word_length = 3], the run on
    the sample site ends with a key of six code points, the lowercase form
    of the three-character match U+0130 U+0130 U+0130. *)
Lemma long_key_in_tally :
  let w := [0x69; 0x307; 0x69; 0x307; 0x69; 0x307]%N in
  max_word_length three_cfg = Some 3%Z
  /\ extract_words three_cfg [0x130; 0x130; 0x130]%N = [w]
  /\ final_words (run three_cfg) !! w = Some 1%nat
  /\ ~ within_lengths three_cfg (length w).
Proof.
  intros w. split; [reflexivity|]. split; [vm_compute; reflexivity|].
  split; [vm_compute; reflexivity|].
  intros [_ H]. specialize (H 3%Z eq_refl). simpl in H. lia.
Qed.

(** C10: the code breaks the claim on the signs U+00D7 and U+00F7, which
    the range of the pattern admits among the letters.  With the defaults,
    the text 1, U+00D7, b, c gives the word U+00D7, b, c, and on that word
    the tokenizer gives nothing: the word is no fixed point. *)
Lemma word_not_fixed_point :
  let w := [0xD7; 0x62; 0x63]%N in
  with_numbers default_cfg = false
  /\ w ∈ extract_words default_cfg (0x31%N :: w)
  /\ extract_words default_cfg w = []
  /\ extract_words default_cfg w <> [w].
Proof.
  intros w. split; [reflexivity|].
  assert (extract_words default_cfg w = []) as H by (vm_compute; reflexivity).
  split; [decide_by_computing|].
  split; [exact H|]. rewrite H. discriminate.
Qed.
End Sample.

(** * Further properties of the program *)

(** ** The tokenizer and the e-mail extractor *)

Section TokenizerMore.
Context {U : Unicode}.

(** A match is a prefix of the text it is looked for in. *)
Lemma match_here_prefix p prev s m :
  match_here p prev s = Some m -> exists t, s = m ++ t.
Proof.
  revert prev s m. induction p as [|[|a|n cls] p IH]; intros prev s m.
  - intros [= <-]. by exists s.
  - intros [_ Hm]%match_boundary_inv. by eapply IH.
  - intros (s' & m' & -> & -> & Hm)%match_lit_inv.
    apply IH in Hm as [t ->]. by exists t.
  - intros (r & t & m' & -> & -> & _ & _ & Hm)%match_atleast_inv.
    apply IH in Hm as [t' ->]. exists t'. by rewrite <- app_assoc.
Qed.

(** The matches of the word patterns, in both modes. *)
Lemma word_match_inv self prev s r :
  match_here (word_pattern self) prev s = Some r ->
  r <> [] /\ exists t, s = r ++ t.
Proof.
  unfold word_pattern.
  destruct (with_numbers self);
    intros (_ & t & -> & _ & Hne & _)%match_word_inv; split; by eauto.
Qed.

Lemma findall_substring p text m :
  m ∈ findall p text -> exists pre post, text = pre ++ m ++ post.
Proof.
  intros (pre & s' & -> & [t ->]%match_here_prefix)%findall_from_at.
  by exists pre, t.
Qed.

(** X1: every word [extract_words] returns is the lowercase form of a
    non-empty piece of consecutive characters of the text that passed the
    length test; without numbers the word has the length of that piece, so
    that no word is empty, whatever [min_word_length]. *)
Theorem words_come_from_text (self : config) (text w : str) :
  w ∈ extract_words self text ->
  exists pre r post,
    text = pre ++ r ++ post /\ r <> [] /\ w = str_lower r
    /\ within_lengths self (length r)
    /\ (with_numbers self = false ->
        w = map latin1_lower r /\ length w = length r /\ w <> []).
Proof.
  unfold extract_words. rewrite filter_words_spec. simpl.
  intros (r & -> & Hr)%list_elem_of_fmap.
  apply list_elem_of_In, filter_In in Hr as [Hr Hok].
  apply list_elem_of_In in Hr.
  destruct (findall_substring _ _ _ Hr) as (pre & post & ->).
  apply findall_from_in in Hr as (prev & s & Hm).
  destruct (word_match_inv _ _ _ _ Hm) as [Hne _].
  exists pre, r, post. split; [done|]. split; [done|]. split; [done|].
  split; [by apply length_ok_within|]. intros Hn.
  unfold word_pattern in Hm. rewrite Hn in Hm.
  apply match_word_inv in Hm as (_ & t & _ & Hcls & _ & _).
  rewrite (str_lower_letters r Hcls). rewrite length_map.
  split; [done|]. split; [done|]. by destruct r.
Qed.

(** X2: with a maximum below the minimum, or below one, no text gives any
    word. *)
Theorem crossed_bounds_give_nothing (self : config) (mx : Z) (text : str) :
  max_word_length self = Some mx ->
  (mx < min_word_length self \/ mx < 1)%Z ->
  extract_words self text = [].
Proof.
  intros Hmx Hlt. unfold extract_words. rewrite filter_words_spec. simpl.
  assert (forall r, r ∈ findall (word_pattern self) text ->
                    length_ok self r = false) as Hno.
  { intros r (prev & s & Hm)%findall_from_in.
    destruct (word_match_inv _ _ _ _ Hm) as [Hne _].
    unfold length_ok. rewrite Hmx. apply andb_false_iff.
    rewrite Z.leb_gt, Z.leb_gt. destruct r; [done|]. simpl length. lia. }
  induction (findall (word_pattern self) text) as [|r l IH]; [done|].
  simpl. rewrite (Hno r) by apply list_elem_of_here.
  apply IH. intros r' Hr'. apply Hno. by right.
Qed.

(** Lowercasing a Latin-1 character changes neither its class nor whether
    it is a word character. *)
Lemma latin1_lower_keeps c :
  (c < 0x100)%N ->
  (latin1_lower c < 0x100)%N
  /\ letter_class (latin1_lower c) = letter_class c
  /\ is_word_char (latin1_lower c) = is_word_char c.
Proof.
  intros Hc.
  assert ((latin1_lower c <? 0x100)%N
          && eqb (letter_class (latin1_lower c)) (letter_class c)
          && eqb (latin1_word (latin1_lower c)) (latin1_word c) = true) as H.
  { revert c Hc. apply below_256. vm_compute. reflexivity. }
  apply andb_true_iff in H as [[H1 H2%eqb_prop]%andb_true_iff H3%eqb_prop].
  unfold is_word_char. rewrite H1. apply N.ltb_lt in H1, Hc as Hc'.
  by rewrite Hc'.
Qed.

Lemma at_boundary_lower prev s :
  (forall c, prev = Some c -> (c < 0x100)%N) ->
  Forall (fun c => (c < 0x100)%N) s ->
  at_boundary (latin1_lower <$> prev) (map latin1_lower s) = at_boundary prev s.
Proof.
  intros Hp Hs. unfold at_boundary. f_equal.
  - destruct prev as [c|]; [|done]. simpl. by apply latin1_lower_keeps, Hp.
  - destruct Hs as [|c s Hc _]; [done|]. simpl. by apply latin1_lower_keeps.
Qed.

Lemma boundary_lower prev s :
  (forall c, prev = Some c -> (c < 0x100)%N) ->
  Forall (fun c => (c < 0x100)%N) s ->
  match_here [Boundary] (latin1_lower <$> prev) (map latin1_lower s)
  = map latin1_lower <$> match_here [Boundary] prev s.
Proof.
  intros Hp Hs. cbn [match_here]. rewrite at_boundary_lower by done.
  by destruct (at_boundary prev s).
Qed.

Lemma greedy_lower cls n cont k prev s :
  (forall c, (c < 0x100)%N -> cls (latin1_lower c) = cls c) ->
  (forall prev' s', (forall c, prev' = Some c -> (c < 0x100)%N) ->
     Forall (fun c => (c < 0x100)%N) s' ->
     cont (latin1_lower <$> prev') (map latin1_lower s')
     = map latin1_lower <$> cont prev' s') ->
  (forall c, prev = Some c -> (c < 0x100)%N) ->
  Forall (fun c => (c < 0x100)%N) s ->
  greedy cls n cont k (latin1_lower <$> prev) (map latin1_lower s)
  = map latin1_lower <$> greedy cls n cont k prev s.
Proof.
  intros Hcls Hcont Hp Hs. revert k prev Hp.
  induction Hs as [|c s Hc Hs IH]; intros k prev Hp.
  - cbn [greedy map]. destruct (n <=? k)%nat; [|done].
    by apply (Hcont prev []).
  - cbn [greedy map]. rewrite (Hcls c Hc).
    assert ((if (n <=? k)%nat
             then cont (latin1_lower <$> prev) (latin1_lower c :: map latin1_lower s)
             else None)
            = map latin1_lower <$>
                (if (n <=? k)%nat then cont prev (c :: s) else None)) as Hstop.
    { destruct (n <=? k)%nat; [|done].
      apply (Hcont prev (c :: s)); [done|by constructor]. }
    destruct (cls c); [|exact Hstop].
    specialize (IH (S k) (Some c)). cbn [fmap option_fmap option_map] in IH.
    rewrite IH by (by intros ? [= <-]).
    destruct (greedy cls n cont (S k) (Some c) s); [done|exact Hstop].
Qed.

Lemma findall_letters_lower prev skip s :
  (forall c, prev = Some c -> (c < 0x100)%N) ->
  Forall (fun c => (c < 0x100)%N) s ->
  findall_from [Boundary; AtLeast 1 letter_class; Boundary]
    (latin1_lower <$> prev) skip (map latin1_lower s)
  = map (map latin1_lower)
      (findall_from [Boundary; AtLeast 1 letter_class; Boundary] prev skip s).
Proof.
  intros Hp Hs. revert prev skip Hp.
  induction Hs as [|c s Hc Hs IH]; intros prev skip Hp; [done|].
  assert (forall k, findall_from [Boundary; AtLeast 1 letter_class; Boundary]
                      (Some (latin1_lower c)) k (map latin1_lower s)
                    = map (map latin1_lower)
                        (findall_from [Boundary; AtLeast 1 letter_class; Boundary]
                           (Some c) k s)) as Hrest.
  { intros k. apply (IH (Some c)). by intros ? [= <-]. }
  assert (match_here [Boundary; AtLeast 1 letter_class; Boundary]
            (latin1_lower <$> prev) (map latin1_lower (c :: s))
          = map latin1_lower <$>
              match_here [Boundary; AtLeast 1 letter_class; Boundary] prev (c :: s))
    as Hm.
  { cbn [match_here].
    rewrite (at_boundary_lower prev (c :: s)) by (done || by constructor).
    destruct (at_boundary prev (c :: s)); [|done].
    apply greedy_lower; [|apply boundary_lower|done|by constructor].
    intros c' Hc'. by apply latin1_lower_keeps. }
  cbn [findall_from map]. destruct skip as [|k]; [|apply Hrest].
  change (latin1_lower c :: map latin1_lower s) with (map latin1_lower (c :: s)).
  rewrite Hm.
  destruct (match_here _ prev (c :: s)) as [m|]; cbn [fmap option_fmap option_map map];
    [|apply Hrest].
  by rewrite length_map, Hrest.
Qed.

(** X3: without numbers, on a text of Latin-1 characters, the words do not
    depend on the case of the text: the lowercased text gives the same
    words. *)
Theorem extract_words_case_insensitive (self : config) (text : str) :
  with_numbers self = false ->
  Forall (fun c => (c < 0x100)%N) text ->
  extract_words self (str_lower text) = extract_words self text.
Proof.
  intros Hn Htext. unfold str_lower. rewrite lower_from_latin1 by done.
  unfold extract_words, word_pattern, findall. rewrite Hn. simpl.
  pose proof (findall_letters_lower None 0 text) as Hf.
  cbn [fmap option_fmap option_map] in Hf. rewrite Hf by done. clear Hf.
  rewrite !filter_words_spec. simpl.
  assert (forall m, m ∈ findall_from [Boundary; AtLeast 1 letter_class; Boundary]
                          None 0 text -> forallb letter_class m = true) as Hm.
  { intros m (prev & s & H)%findall_from_in.
    by apply match_word_inv in H as (_ & t & _ & ? & _). }
  induction (findall_from _ None 0 text) as [|m ms IH]; [done|].
  assert (length_ok self (map latin1_lower m) = length_ok self m) as Hlen
    by (unfold length_ok; by rewrite length_map).
  assert (forallb letter_class m = true) as Hcls by apply Hm, list_elem_of_here.
  simpl. rewrite Hlen.
  specialize (IH (fun m' Hm' => Hm m' (list_elem_of_further _ _ _ Hm'))).
  destruct (length_ok self m); [|done]. simpl. rewrite IH. f_equal.
  rewrite (str_lower_letters m Hcls).
  rewrite str_lower_letters by by apply lower_letters_class.
  by apply lower_letters_idem.
Qed.

Lemma not_in_class (cls : char -> bool) (a : char) (l : str) :
  forallb cls l = true -> cls a = false -> a ∉ l.
Proof.
  rewrite forallb_forall. intros Hl Ha Hin%list_elem_of_In%Hl. congruence.
Qed.

(** X4: an address [extract_emails] returns is a piece of consecutive
    characters of the text with exactly one at sign, which has something
    before it and after it; a text without at sign gives no address. *)
Theorem emails_come_from_text (text : str) :
  (forall e, e ∈ extract_emails text ->
     exists pre post loc rest,
       text = pre ++ e ++ post /\ e = loc ++ 0x40%N :: rest
       /\ loc <> [] /\ rest <> [] /\ (0x40%N ∉ loc) /\ (0x40%N ∉ rest))
  /\ (0x40%N ∉ text -> extract_emails text = []).
Proof.
  assert (forall e, e ∈ extract_emails text ->
     exists pre post loc rest,
       text = pre ++ e ++ post /\ e = loc ++ 0x40%N :: rest
       /\ loc <> [] /\ rest <> [] /\ (0x40%N ∉ loc) /\ (0x40%N ∉ rest)) as Hshape.
  { intros e He. destruct (findall_substring _ _ _ He) as (pre & post & Htext).
    apply findall_from_in in He as (prev & s & Hm).
    apply match_email_inv in Hm
      as (loc & dom & tld & -> & Hne & Hloc & _ & Hdom & _ & Htld).
    exists pre, post, loc, (dom ++ [0x2E%N] ++ tld).
    split; [done|]. split; [done|]. split; [done|].
    split; [by destruct dom|]. split; [by eapply not_in_class|].
    rewrite !not_elem_of_app. split; [by eapply not_in_class|].
    split; [|by eapply not_in_class].
    by intros [=]%list_elem_of_singleton. }
  split; [exact Hshape|]. intros Hno.
  destruct (extract_emails text) as [|e l] eqn:He; [done|].
  destruct (Hshape e) as (pre & post & loc & rest & -> & -> & _);
    [apply list_elem_of_here|].
  exfalso. apply Hno. rewrite !elem_of_app. right. left. right. by left.
Qed.
End TokenizerMore.

(** ** The crawler *)

Lemma occurrences_app w l1 l2 :
  occurrences w (l1 ++ l2) = (occurrences w l1 + occurrences w l2)%nat.
Proof. unfold occurrences. by rewrite List.filter_app, length_app. Qed.

Lemma count_counter_update_exact c ws w :
  count (counter_update c ws) w = (count c w + occurrences w ws)%nat.
Proof.
  unfold counter_update. revert c. induction ws as [|x ws IH]; intros c.
  - simpl. unfold occurrences. simpl. lia.
  - simpl foldl. rewrite IH. change (x :: ws) with ([x] ++ ws).
    rewrite occurrences_app. unfold occurrences at 2. simpl.
    unfold count. destruct (decide (x = w)) as [->|Hne].
    + rewrite lookup_insert_eq, bool_decide_eq_true_2 by done. simpl. lia.
    + rewrite lookup_insert_ne, bool_decide_eq_false_2 by done. simpl. lia.
Qed.

(** [before_hash] keeps what stands before the first hash sign. *)
Lemma before_hash_spec s :
  (0x23%N ∉ before_hash s)
  /\ (exists t, s = before_hash s ++ t)
  /\ (0x23%N ∉ s -> before_hash s = s).
Proof.
  induction s as [|c s (IH1 & [t IH2] & IH3)]; simpl.
  - split; [by intros ?%elem_of_nil|]. split; [by exists []|done].
  - destruct (N.eqb_spec c 0x23) as [->|Hc].
    + split; [by intros ?%elem_of_nil|]. split; [by eexists|].
      intros H. exfalso. apply H. by left.
    + split; [|split].
      * by intros [?|?]%elem_of_cons.
      * exists t. simpl. by rewrite <- IH2.
      * intros [_ H]%not_elem_of_cons. by rewrite IH3.
Qed.

Section CrawlerMore.
Context {U : Unicode} {W : Web}.

Lemma extract_words_empty self : extract_words self [] = [].
Proof. reflexivity. Qed.

Lemma count_meta_update_exact self cs c w :
  count (meta_update self cs c) w
  = (count c w + occurrences w (flat_map (extract_words self) cs))%nat.
Proof.
  revert c. induction cs as [|content cs IH]; intros c; simpl.
  - unfold occurrences. simpl. lia.
  - rewrite IH, occurrences_app. destruct content as [|x content].
    + rewrite extract_words_empty. unfold occurrences at 2. simpl. lia.
    + rewrite count_counter_update_exact. lia.
Qed.

(** X5: a parsed page adds to the count of every word the number of times
    the tokenizer returns it on the visible text and, if [meta] is set, on
    the contents of the meta tags; nothing else changes a count. *)
Theorem harvest_counts (self : config) (p : page) (st : state) (w : str) :
  count (words (harvest self p st)) w
  = (count (words st) w
     + occurrences w (extract_words self (page_text p))
     + if meta self
       then occurrences w (flat_map (extract_words self) (meta_contents p))
       else 0)%nat.
Proof.
  unfold harvest. simpl. destruct (meta self).
  - by rewrite count_meta_update_exact, count_counter_update_exact.
  - rewrite count_counter_update_exact. lia.
Qed.

(** X6: addresses are collected only when [email_file] is a non-empty
    name, and every address of the final set was found by [extract_emails]
    in the visible text of a page of the run: the request log has a request
    whose answer, after the requests before it, was that page. *)
Theorem emails_of_run (self : config) :
  exists st o, run self = Some (st, o)
    /\ (truthy (email_file self) = false -> emails st = ∅)
    /\ forall e, e ∈ emails st ->
         exists before url d after p,
           requests st = before ++ (url, d) :: after
           /\ http_get (map fst before) url = Parsed p
           /\ e ∈ extract_emails (page_text p).
Proof.
  destruct (run_visits self) as (st & o & Hrun & Hrtc). exists st, o.
  split; [done|].
  eapply (visits_rtc_ind self 0 (fun s =>
            (truthy (email_file self) = false -> emails s = ∅)
            /\ forall e, e ∈ emails s ->
                 exists before url d after p,
                   requests s = before ++ (url, d) :: after
                   /\ http_get (map fst before) url = Parsed p
                   /\ e ∈ extract_emails (page_text p))); [| |exact Hrtc].
  - split; [done|]. by intros e ?%not_elem_of_empty.
  - intros s url d [IH1 IH2] _ _ _.
    assert (forall e, e ∈ emails s ->
              exists before url0 d0 after p,
                requests (visit self s url d) = before ++ (url0, d0) :: after
                /\ http_get (map fst before) url0 = Parsed p
                /\ e ∈ extract_emails (page_text p)) as Hold.
    { intros e (before & url0 & d0 & after & p & Hreq & Hget & He)%IH2.
      exists before, url0, d0, (after ++ [(url, d)]), p.
      rewrite requests_visit, Hreq, <- app_assoc. by split. }
    split.
    + intros Hoff. specialize (IH1 Hoff). unfold visit.
      destruct (http_get _ url); [done..|]. unfold harvest. simpl.
      by rewrite Hoff.
    + intros e He. unfold visit in He.
      destruct (http_get (map fst (requests s)) url) as [| |p] eqn:Hget;
        [by apply Hold..|].
      unfold harvest in He. simpl in He.
      destruct (truthy (email_file self)); [|by apply Hold].
      apply elem_of_union in He as [He|He]; [by apply Hold|].
      apply elem_of_list_to_set in He.
      exists (requests s), url, d, [], p. by rewrite requests_visit.
Qed.

(** X8: a link that [urljoin] rejects ends the loop over the links of the
    page: the links after it are not followed, those before it are. *)
Theorem rejected_link_ends_page
    (rec : state -> str -> option (state * outcome))
    (url bad : str) (before after : list str) (st : state) :
  urljoin url bad = None ->
  crawl_links rec url (before ++ bad :: after) st
  = crawl_links rec url before st.
Proof.
  intros Hbad. revert st. induction before as [|href l IH]; intros st; simpl.
  - by rewrite Hbad.
  - destruct (urljoin url href) as [next_url|]; [|done].
    destruct (rec st (before_hash next_url)) as [[st' []]|]; [apply IH|done..].
Qed.

(** The requests of the loop over the links of a page crawled at depth
    [d]: deeper than [d], for URLs without hash sign. *)
Lemma crawl_links_log rec d url links st st' :
  (forall s u s' o, rec s u = Some (s', o) ->
     requests s' = requests s
     \/ exists more, requests s' = requests s ++ (u, d + 1)%Z :: more
          /\ Forall (fun ud => (d + 1 < ud.2)%Z /\ 0x23%N ∉ ud.1) more) ->
  crawl_links rec url links st = Some st' ->
  exists new, requests st' = requests st ++ new
    /\ Forall (fun ud => (d < ud.2)%Z /\ 0x23%N ∉ ud.1) new.
Proof.
  intros Hrec. revert st. induction links as [|href links IH]; intros st; simpl.
  - intros [= <-]. exists []. by rewrite app_nil_r.
  - destruct (urljoin url href) as [next_url|];
      [|intros [= <-]; exists []; by rewrite app_nil_r].
    destruct (rec st (before_hash next_url)) as [[s o]|] eqn:Hr; [|done].
    assert (exists new, requests s = requests st ++ new
              /\ Forall (fun ud => (d < ud.2)%Z /\ 0x23%N ∉ ud.1) new)
      as (new & Hnew & Hall).
    { apply Hrec in Hr as [Hr|(more & Hr & Hmore)].
      - exists []. by rewrite app_nil_r.
      - exists ((before_hash next_url, (d + 1)%Z) :: more). split; [done|].
        constructor; [simpl; split; [lia|apply before_hash_spec]|].
        eapply Forall_impl; [exact Hmore|]. simpl. intros ? [? ?]. split; [lia|done]. }
    destruct o.
    + intros (new' & Hnew' & Hall')%IH. exists (new ++ new').
      rewrite Hnew', Hnew, <- app_assoc. split; [done|by apply Forall_app].
    + intros [= <-]. by exists new.
Qed.

Lemma crawl_fuel_log fuel self st url d st' o :
  crawl_fuel fuel self st url d = Some (st', o) ->
  requests st' = requests st
  \/ exists more, requests st' = requests st ++ (url, d) :: more
       /\ Forall (fun ud => (d < ud.2)%Z /\ 0x23%N ∉ ud.1) more.
Proof.
  revert st url d st' o. induction fuel as [|fuel IH]; intros st url d st' o; [done|].
  simpl. destruct (_ || _); [intros [= <- _]; by left|].
  destruct (is_valid_url self url) as [[]|]; [|intros [= <- _]; by left..].
  destruct (http_get _ url) as [| |p];
    [intros [= <- _]; right; by exists []..|].
  destruct (d <? depth self)%Z; [|intros [= <- _]; right; by exists []].
  destruct (crawl_links _ url (hrefs p) _) as [st3|] eqn:Hl; [|done].
  intros [= <- _]. right.
  apply (crawl_links_log _ d) in Hl as (new & Hnew & Hall).
  - exists new. split; [|done]. rewrite Hnew. simpl. by rewrite <- app_assoc.
  - intros s u s' o' Hr. by apply IH in Hr.
Qed.

(** X9: the first request of a run is for the start URL at depth 0, and
    every later request is at depth 1 or more, for a URL without hash
    sign; there is a request as soon as the depth is not negative and
    [urlparse] accepts the start URL. *)
Theorem run_request_log (self : config) :
  exists st o, run self = Some (st, o)
    /\ (requests st = []
        \/ exists more, requests st = (start_url self, 0%Z) :: more
             /\ Forall (fun ud => (0 < ud.2)%Z /\ 0x23%N ∉ ud.1) more)
    /\ ((0 <= depth self)%Z -> is_Some (netloc (start_url self)) ->
        requests st <> []).
Proof.
  destruct (run_visits self) as (st & o & Hrun & _). exists st, o.
  split; [done|]. split.
  - by apply crawl_fuel_log in Hrun.
  - intros Hd [n Hn]. unfold run in Hrun. rewrite crawl_unfold in Hrun.
    destruct (Z.gtb_spec 0 (depth self)) as [?|_]; [lia|].
    rewrite bool_decide_eq_false_2 in Hrun by apply not_elem_of_empty.
    rewrite (is_valid_url_start self n Hn) in Hrun. simpl in Hrun.
    destruct (http_get [] (start_url self)) as [| |p];
      [by injection Hrun as <- _..|].
    destruct (0 <? depth self)%Z; [|by injection Hrun as <- _].
    destruct (crawl_links _ _ (hrefs p) _) as [st3|] eqn:Hl; [|done].
    injection Hrun as <- _.
    apply (crawl_links_log _ 0) in Hl as (new & -> & _); [done|].
    intros s u s' o' Hr. by apply crawl_fuel_log in Hr.
Qed.

Lemma filter_words_lowercase b self ws acc :
  filter_words (with_lowercase b self) ws acc = filter_words self ws acc.
Proof.
  revert acc. induction ws as [|w ws IH]; intros acc; [done|].
  simpl. by rewrite IH.
Qed.

Lemma extract_words_lowercase b self text :
  extract_words (with_lowercase b self) text = extract_words self text.
Proof. unfold extract_words. apply filter_words_lowercase. Qed.

Lemma meta_update_lowercase b self cs c :
  meta_update (with_lowercase b self) cs c = meta_update self cs c.
Proof.
  revert c. induction cs as [|content cs IH]; intros c; [done|].
  simpl. rewrite IH. destruct content; [done|].
  by rewrite extract_words_lowercase.
Qed.

Lemma harvest_lowercase b self p st :
  harvest (with_lowercase b self) p st = harvest self p st.
Proof.
  unfold harvest. simpl.
  by rewrite extract_words_lowercase, meta_update_lowercase.
Qed.

Lemma crawl_links_ext rec rec' url links st :
  (forall s u, rec s u = rec' s u) ->
  crawl_links rec url links st = crawl_links rec' url links st.
Proof.
  intros Hrec. revert st. induction links as [|href links IH]; intros st; [done|].
  simpl. destruct (urljoin url href) as [next_url|]; [|done].
  rewrite Hrec. destruct (rec' st (before_hash next_url)) as [[s []]|]; [apply IH|done..].
Qed.

Lemma crawl_fuel_lowercase b fuel self st url d :
  crawl_fuel fuel (with_lowercase b self) st url d = crawl_fuel fuel self st url d.
Proof.
  revert st url d. induction fuel as [|fuel IH]; intros st url d; [done|].
  simpl. destruct (_ || _); [done|].
  change (is_valid_url (with_lowercase b self) url) with (is_valid_url self url).
  destruct (is_valid_url self url) as [[]|]; [|done..].
  destruct (http_get _ url) as [| |p]; [done..|].
  rewrite harvest_lowercase. destruct (d <? depth self)%Z; [|done].
  by rewrite (crawl_links_ext _ (fun s next_url => crawl_fuel fuel self s next_url (d + 1))).
Qed.

(** X11: a run that gets no page ends with an empty tally and no address:
    with a negative depth it requests nothing; when [urlparse] raises on
    the start URL it requests nothing and the exception leaves [run]; when
    the start page does not load or parse, the request for it is the only
    one. *)
Theorem run_without_page (self : config) :
  ((depth self < 0)%Z -> run self = Some (new_instance, Returned))
  /\ ((0 <= depth self)%Z -> netloc (start_url self) = None ->
      run self = Some (new_instance, Raised))
  /\ ((0 <= depth self)%Z -> is_Some (netloc (start_url self)) ->
      (forall p, http_get [] (start_url self) <> Parsed p) ->
      exists st, run self = Some (st, Returned)
        /\ words st = ∅ /\ emails st = ∅
        /\ requests st = [(start_url self, 0%Z)]).
Proof.
  split; [|split].
  - intros Hd. by apply crawl_too_deep.
  - intros Hd Hn. unfold run. rewrite crawl_unfold.
    destruct (Z.gtb_spec 0 (depth self)) as [?|_]; [lia|].
    rewrite bool_decide_eq_false_2 by apply not_elem_of_empty.
    unfold is_valid_url. by rewrite Hn.
  - intros Hd [n Hn] Hfail. exists (begin_request new_instance (start_url self) 0).
    split; [|done]. unfold run.
    rewrite crawl_visit_only;
      [|done|apply not_elem_of_empty|by eapply is_valid_url_start|by right].
    unfold visit. simpl.
    destruct (http_get [] (start_url self)) as [| |p] eqn:Hg; [done..|].
    by destruct (Hfail p).
Qed.



End CrawlerMore.

(** ** Sorting *)

Section Sorted.
Context {A : Type} (le : A -> A -> bool).

Lemma insert_sorted_perm x l : insert_sorted le x l ≡ₚ x :: l.
Proof.
  induction l as [|y l IH]; simpl; [done|].
  destruct (le x y); [done|]. rewrite IH. apply Permutation_swap.
Qed.

Lemma sorted_perm l : sorted le l ≡ₚ l.
Proof.
  induction l as [|x l IH]; simpl; [done|].
  by rewrite insert_sorted_perm, IH.
Qed.

Hypothesis le_total : forall x y, le x y = true \/ le y x = true.
Hypothesis le_trans : forall x y z, le x y = true -> le y z = true -> le x z = true.

Lemma insert_sorted_sorted x l :
  StronglySorted (fun a b => le a b = true) l ->
  StronglySorted (fun a b => le a b = true) (insert_sorted le x l).
Proof using le_total le_trans.
  induction 1 as [|y l Hl IH Hy]; simpl.
  - repeat constructor.
  - destruct (le x y) eqn:Hxy.
    + constructor; [by constructor|]. constructor; [done|].
      eapply Forall_impl; [exact Hy|]. simpl. intros z Hz. by eapply le_trans.
    + constructor; [done|]. rewrite insert_sorted_perm.
      constructor; [|done]. destruct (le_total x y); congruence.
Qed.

Lemma sorted_sorted l : StronglySorted (fun a b => le a b = true) (sorted le l).
Proof using le_total le_trans.
  induction l as [|x l IH]; simpl; [constructor|].
  by apply insert_sorted_sorted.
Qed.

(** The sort is stable: elements that may stand before one another keep
    their order. *)
Lemma insert_sorted_filter (P : A -> bool) x l :
  (forall a b, P a = true -> P b = true -> le a b = true) ->
  List.filter P (insert_sorted le x l) = List.filter P (x :: l).
Proof.
  intros HP. induction l as [|y l IH]; simpl; [done|].
  destruct (le x y) eqn:Hxy; [done|]. simpl. rewrite IH. simpl.
  destruct (P x) eqn:Hx, (P y) eqn:Hy; try done.
  rewrite HP in Hxy; done.
Qed.

Lemma sorted_filter (P : A -> bool) l :
  (forall a b, P a = true -> P b = true -> le a b = true) ->
  List.filter P (sorted le l) = List.filter P l.
Proof.
  intros HP. induction l as [|x l IH]; simpl; [done|].
  rewrite insert_sorted_filter by done. simpl. by rewrite IH.
Qed.

Hypothesis le_antisym : forall x y, le x y = true -> le y x = true -> x = y.

(** For an order, the result depends on the elements only. *)
Lemma sorted_unique l l' : l ≡ₚ l' -> sorted le l = sorted le l'.
Proof using le_total le_trans le_antisym.
  intros Hperm.
  apply (@StronglySorted_unique A (fun a b => le a b = true) le_antisym).
  - apply sorted_sorted.
  - apply sorted_sorted.
  - by rewrite !sorted_perm.
Qed.
End Sorted.

(** The order of strings. *)
Lemma str_le_total a b : str_le a b = true \/ str_le b a = true.
Proof.
  revert b. induction a as [|x a IH]; intros [|y b]; simpl; try by auto.
  destruct (N.ltb_spec x y), (N.ltb_spec y x); by auto.
Qed.

Lemma str_le_trans a b c :
  str_le a b = true -> str_le b c = true -> str_le a c = true.
Proof.
  revert b c. induction a as [|x a IH]; intros [|y b] [|z c]; simpl; try done.
  destruct (N.ltb_spec x y), (N.ltb_spec y x), (N.ltb_spec y z),
    (N.ltb_spec z y), (N.ltb_spec x z), (N.ltb_spec z x);
    try done; try lia. apply IH.
Qed.

Lemma str_le_antisym a b : str_le a b = true -> str_le b a = true -> a = b.
Proof.
  revert b. induction a as [|x a IH]; intros [|y b]; simpl; try done.
  destruct (N.ltb_spec x y), (N.ltb_spec y x); try done; try lia.
  intros Hab Hba. f_equal; [lia|by apply IH].
Qed.

Lemma by_count_then_word_total x y :
  by_count_then_word x y = true \/ by_count_then_word y x = true.
Proof.
  unfold by_count_then_word.
  destruct (Nat.ltb_spec x.2 y.2), (Nat.ltb_spec y.2 x.2); try by auto.
  apply str_le_total.
Qed.

Lemma by_count_then_word_trans x y z :
  by_count_then_word x y = true -> by_count_then_word y z = true ->
  by_count_then_word x z = true.
Proof.
  unfold by_count_then_word.
  destruct (Nat.ltb_spec x.2 y.2), (Nat.ltb_spec y.2 x.2), (Nat.ltb_spec y.2 z.2),
    (Nat.ltb_spec z.2 y.2), (Nat.ltb_spec x.2 z.2), (Nat.ltb_spec z.2 x.2);
    try done; try lia. apply str_le_trans.
Qed.

Lemma by_count_then_word_antisym x y :
  by_count_then_word x y = true -> by_count_then_word y x = true -> x = y.
Proof.
  unfold by_count_then_word. destruct x as [w n], y as [w' n']. simpl.
  destruct (Nat.ltb_spec n n'), (Nat.ltb_spec n' n); try done; try lia.
  intros H1 H2. f_equal; [by apply str_le_antisym|lia].
Qed.

Lemma by_count_total x y : by_count x y = true \/ by_count y x = true.
Proof. unfold by_count. rewrite !Nat.leb_le. lia. Qed.

Lemma by_count_trans x y z :
  by_count x y = true -> by_count y z = true -> by_count x z = true.
Proof. unfold by_count. rewrite !Nat.leb_le. lia. Qed.

(** ** The command line *)

Lemma split_colon_spec s u p :
  split_colon s = Some (u, p) <-> s = u ++ 0x3A%N :: p /\ 0x3A%N ∉ u.
Proof.
  revert u. induction s as [|c s IH]; intros u; simpl.
  - split; [done|]. intros [Hs _]. by destruct u.
  - destruct (N.eqb_spec c 0x3A) as [->|Hc].
    + split.
      * intros [= <- <-]. split; [done|]. by intros ?%elem_of_nil.
      * intros [Hs Hu]. destruct u as [|x u]; [by injection Hs as <-|].
        injection Hs as <- _. exfalso. apply Hu. by left.
    + destruct (split_colon s) as [[u' p']|] eqn:Hsp.
      * split.
        -- intros [= <- <-]. destruct (proj1 (IH u') eq_refl) as [-> Hu'].
           split; [done|]. by intros [?|?]%elem_of_cons.
        -- intros [Hs Hu]. destruct u as [|x u]; [by injection Hs as ->|].
           injection Hs as <- Hs. apply not_elem_of_cons in Hu as [_ Hu].
           by injection (proj2 (IH u) (conj Hs Hu)) as -> ->.
      * split; [done|]. intros [Hs Hu].
        destruct u as [|x u]; [by injection Hs as ->|].
        injection Hs as <- Hs. apply not_elem_of_cons in Hu as [_ Hu].
        by pose proof (proj2 (IH u) (conj Hs Hu)).
Qed.

Lemma split_colon_none s : split_colon s = None <-> 0x3A%N ∉ s.
Proof.
  induction s as [|c s IH]; simpl.
  - split; [by intros _ ?%elem_of_nil|done].
  - destruct (N.eqb_spec c 0x3A) as [->|Hc].
    + split; [done|]. intros H. exfalso. apply H. by left.
    + rewrite not_elem_of_cons, <- IH.
      destruct (split_colon s) as [[u p]|]; split; try done; by intros [_ ?].
Qed.

Lemma join_terminated (sep : str) (l : list str) :
  l <> [] -> join sep l ++ sep = flat_map (fun x => x ++ sep) l.
Proof.
  induction l as [|x l IH]; [done|]. intros _.
  destruct l as [|y l]; [simpl; by rewrite app_nil_r|].
  change (join sep (x :: y :: l)) with (x ++ sep ++ join sep (y :: l)).
  change (flat_map (fun x => x ++ sep) (x :: y :: l))
    with ((x ++ sep) ++ flat_map (fun x => x ++ sep) (y :: l)).
  rewrite <- IH by done. by rewrite <- !app_assoc.
Qed.

Lemma strongly_sorted_impl {A} (R R' : A -> A -> Prop) l :
  (forall x y, R x y -> R' x y) -> StronglySorted R l -> StronglySorted R' l.
Proof.
  intros HR. induction 1 as [|x l Hl IH Hx]; constructor; [done|].
  eapply Forall_impl; [exact Hx|]. by apply HR.
Qed.

Section Main.
Context {U : Unicode} {W : Web} {H : Host}.

(** X12: the credentials must have a colon: the user name is what stands
    before the first colon and the password all the rest; a non-empty
    [--auth] without colon makes [main] exit with code 1 before any
    request and any output; no [--auth] or an empty one is no error. *)
Theorem auth_needs_colon (a : args) :
  (forall s u p, s <> [] ->
     (parse_auth (Some s) = Some (Some (u, p))
      <-> s = u ++ 0x3A%N :: p /\ 0x3A%N ∉ u))
  /\ (forall s, args_auth a = Some s -> s <> [] -> 0x3A%N ∉ s ->
        main a = Some {| exit_code := 1; effects := []; requested := [] |})
  /\ parse_auth None = Some None /\ parse_auth (Some []) = Some None.
Proof.
  split; [|split; [|done]].
  - intros s u p Hs. unfold parse_auth. destruct s as [|c s]; [done|].
    cbn [truthy default from_option id]. rewrite <- split_colon_spec.
    destruct (split_colon (c :: s)) as [[u' p']|]; split; congruence.
  - intros s Hauth Hs Hno. unfold main, parse_auth. rewrite Hauth.
    destruct s as [|c s]; [done|]. cbn [truthy default from_option id].
    by rewrite (proj2 (split_colon_none (c :: s)) Hno).
Qed.

(** X13: without [--count], the lines of the word list are the words of
    the tally, each once, by decreasing count and, for equal counts, in
    the order of the strings; the list does not depend on the order of
    the dictionary. *)
Theorem word_list_order (m : gmap str nat) (items : list (str * nat)) :
  items ≡ₚ map_to_list m ->
  let l := sorted_words false items in
  (forall w n, (w, n) ∈ l <-> m !! w = Some n)
  /\ output_lines false l = map fst l
  /\ NoDup (map fst l)
  /\ StronglySorted
       (fun x y => (y.2 < x.2)%nat \/ (x.2 = y.2 /\ str_le x.1 y.1 = true)) l
  /\ l = sorted_words false (map_to_list m).
Proof.
  intros Hitems l.
  assert (l ≡ₚ map_to_list m) as Hperm
    by (unfold l, sorted_words; by rewrite sorted_perm).
  split; [|split; [|split; [|split]]].
  - intros w n. by rewrite Hperm, elem_of_map_to_list.
  - done.
  - rewrite Hperm. apply NoDup_fst_map_to_list.
  - eapply strongly_sorted_impl;
      [|apply (sorted_sorted by_count_then_word by_count_then_word_total
                 by_count_then_word_trans)].
    intros x y. unfold by_count_then_word.
    destruct (Nat.ltb_spec y.2 x.2); [by left|].
    destruct (Nat.ltb_spec x.2 y.2); [done|]. intros Hle. right. split; [lia|done].
  - unfold l, sorted_words.
    by apply (sorted_unique by_count_then_word by_count_then_word_total
                by_count_then_word_trans by_count_then_word_antisym).
Qed.

(** X14: with [--count], the entries of the tally are listed by
    non-increasing count, the entries of equal count in the order of the
    dictionary. *)
Theorem most_common_order (items : list (str * nat)) :
  let l := sorted_words true items in
  l ≡ₚ items
  /\ StronglySorted (fun x y => (y.2 <= x.2)%nat) l
  /\ forall n, List.filter (fun x => (x.2 =? n)%nat) l
               = List.filter (fun x => (x.2 =? n)%nat) items.
Proof.
  intros l. unfold l, sorted_words. split; [apply sorted_perm|]. split.
  - eapply strongly_sorted_impl;
      [|apply (sorted_sorted by_count by_count_total by_count_trans)].
    intros x y. unfold by_count. by rewrite Nat.leb_le.
  - intros n. apply sorted_filter. intros x y Hx%Nat.eqb_eq Hy%Nat.eqb_eq.
    unfold by_count. apply Nat.leb_le. lia.
Qed.

(** X15: the text of the word list has one line for each word of the
    tally, each ended by a newline; for an empty tally it is one empty
    line. *)
Theorem word_text_layout (count : bool) (m : gmap str nat) :
  items_listed ->
  let lines := output_lines count (sorted_words count (counter_items m)) in
  length lines = size m
  /\ (m = ∅ -> word_text count m = [0x0A%N])
  /\ (m <> ∅ -> word_text count m = flat_map (fun l => l ++ [0x0A%N]) lines).
Proof.
  intros Hitems lines.
  assert (length lines = size m) as Hlen.
  { unfold lines, output_lines, sorted_words. rewrite length_map.
    rewrite <- length_map_to_list, <- (Hitems m).
    destruct count; by rewrite sorted_perm. }
  split; [done|]. split.
  - intros ->. rewrite map_size_empty in Hlen. unfold word_text. fold lines.
    by destruct lines.
  - intros Hne. unfold word_text. fold lines. apply join_terminated.
    intros Hnil. rewrite Hnil in Hlen. simpl in Hlen.
    symmetry in Hlen. by apply map_size_empty_iff in Hlen.
Qed.

(** X16: the addresses of the e-mail file are those of the set, each once,
    one on a line, in the strictly increasing order of the strings. *)
Theorem email_text_sorted (E : gset str) :
  let l := sorted str_le (elements E) in
  email_text E = flat_map (fun e => e ++ [0x0A%N]) l
  /\ (forall e, e ∈ l <-> e ∈ E)
  /\ StronglySorted (fun a b => str_le a b = true /\ a <> b) l.
Proof.
  intros l. split; [done|].
  assert (l ≡ₚ elements E) as Hperm by apply sorted_perm.
  split; [intros e; by rewrite Hperm, elem_of_elements|].
  assert (NoDup l) as Hnd by (rewrite Hperm; apply NoDup_elements).
  pose proof (sorted_sorted str_le str_le_total str_le_trans (elements E)) as Hs.
  fold l in Hs. clear Hperm. induction Hs as [|x l' Hl IH Hx]; constructor.
  - apply IH. by apply NoDup_cons in Hnd as [_ ?].
  - apply NoDup_cons in Hnd as [Hx' _]. apply Forall_forall.
    intros y Hy. split; [by eapply Forall_forall in Hx|]. by intros ->.
Qed.

(** X10: the [lowercase] setting changes nothing: a run and the whole
    program give the same with and without it. *)
Theorem lowercase_changes_nothing (b : bool) :
  (forall self, run (with_lowercase b self) = run self)
  /\ (forall a, main (args_with_lowercase b a) = main a).
Proof.
  assert (forall self, run (with_lowercase b self) = run self) as Hrun
    by (intros self; apply crawl_fuel_lowercase).
  split; [exact Hrun|]. intros a. unfold main.
  change (cewl_of_args (args_with_lowercase b a))
    with (with_lowercase b (cewl_of_args a)).
  by rewrite Hrun.
Qed.

(** X17: [main] always ends, with exit code 0 or 1.  What it writes is
    the e-mail file, only when [-e] names a file and addresses were
    found, and the word list, never with [--email-only]; after a run that
    raised it writes nothing; and when it ends with code 0 without
    [--email-only], the word list is the last text written. *)
Theorem main_outcome (a : args) :
  exists e, main a = Some e
    /\ (exit_code e = 0%Z \/ exit_code e = 1%Z)
    /\ (forall dest text, Wrote dest text ∈ effects e ->
          exists st, run (cewl_of_args a) = Some (st, Returned)
            /\ ((dest = args_email a /\ truthy (args_email a) = true
                 /\ emails st <> ∅ /\ text = email_text (emails st))
                \/ (args_email_only a = false
                    /\ dest = (if truthy (args_write a) then args_write a else None)
                    /\ text = word_text (args_count a) (words st))))
    /\ (exit_code e = 0%Z -> args_email_only a = false ->
        exists st, run (cewl_of_args a) = Some (st, Returned)
          /\ last (effects e)
             = Some (Wrote (if truthy (args_write a) then args_write a else None)
                       (word_text (args_count a) (words st)))).
Proof.
  unfold main. destruct (parse_auth (args_auth a)) as [auth|].
  2:{ eexists. split; [done|]. split; [by right|]. split; [|done].
      by intros ? ? ?%elem_of_nil. }
  destruct (run_visits (cewl_of_args a)) as (st & o & Hrun & _). rewrite Hrun.
  destruct o.
  2:{ eexists. split; [done|]. split; [by right|]. split; [|done].
      by intros ? ? ?%elem_of_nil. }
  set (saved := if truthy (args_email a) && negb (bool_decide (emails st = ∅))
                then if write_ok (args_email a) (email_text (emails st))
                     then Some [Wrote (args_email a) (email_text (emails st))]
                     else None
                else Some []).
  assert (forall l, saved = Some l -> forall dest text, Wrote dest text ∈ l ->
            dest = args_email a /\ truthy (args_email a) = true
            /\ emails st <> ∅ /\ text = email_text (emails st)) as Hsaved.
  { intros l. unfold saved.
    destruct (truthy (args_email a)) eqn:Ht; simpl;
      [|intros [= <-] ? ? ?%elem_of_nil; done].
    case_bool_decide as He; simpl; [intros [= <-] ? ? ?%elem_of_nil; done|].
    destruct (write_ok _ _); [|done].
    by intros [= <-] dest text [= -> ->]%list_elem_of_singleton. }
  destruct saved as [l|] eqn:Hl.
  2:{ eexists. split; [done|]. split; [by right|]. split; [|done].
      by intros ? ? ?%elem_of_nil. }
  destruct (args_email_only a) eqn:Honly.
  { eexists. split; [done|]. split; [by left|]. split; [|done].
    intros dest text Hin. exists st. split; [done|]. left. by eapply Hsaved. }
  destruct (write_ok _ (word_text (args_count a) (words st))).
  - eexists. split; [done|]. split; [by left|]. split.
    + intros dest text [Hin|Hin%list_elem_of_singleton]%elem_of_app;
        exists st; (split; [done|]).
      * left. by eapply Hsaved.
      * right. by injection Hin as -> ->.
    + intros _ _. exists st. split; [done|]. simpl. by rewrite last_snoc.
  - eexists. split; [done|]. split; [by right|]. split; [|done].
    intros dest text Hin. exists st. split; [done|]. left. by eapply Hsaved.
Qed.

(** X18: when [urlparse] raises on the URL of the command line, [main]
    exits with code 1 without a request and without output. *)
Theorem main_rejects_bad_url (a : args) :
  parse_auth (args_auth a) <> None ->
  (0 <= args_depth a)%Z ->
  netloc (args_url a) = None ->
  main a = Some {| exit_code := 1; effects := []; requested := [] |}.
Proof.
  intros Hauth Hd Hn. unfold main.
  destruct (parse_auth (args_auth a)) as [auth|]; [|done].
  assert (run (cewl_of_args a) = Some (new_instance, Raised)) as ->; [|done].
  unfold run. rewrite crawl_unfold. simpl.
  destruct (Z.gtb_spec 0 (args_depth a)) as [?|_]; [lia|].
  rewrite bool_decide_eq_false_2 by apply not_elem_of_empty.
  unfold is_valid_url. simpl. by rewrite Hn.
Qed.
End Main.

(** * The further properties on the sample world *)

Section SampleMore.
#[local] Existing Instance latin_unicode.
#[local] Existing Instance sample_web.
#[local] Existing Instance sample_host.

Lemma words_come_from_text_witness :
  py "hello" ∈ extract_words default_cfg (py "Hello World")
  /\ exists pre r post,
       py "Hello World" = pre ++ r ++ post /\ r <> []
       /\ py "hello" = str_lower r.
Proof.
  assert (py "hello" ∈ extract_words default_cfg (py "Hello World")) as Hin
    by decide_by_computing.
  split; [exact Hin|].
  destruct (words_come_from_text default_cfg _ _ Hin)
    as (pre & r & post & H1 & H2 & H3 & _).
  exists pre, r, post. split; [exact H1|]. split; [exact H2|exact H3].
Defined.

Lemma crossed_bounds_give_nothing_witness :
  max_word_length crossed_cfg = Some 4%Z
  /\ (4 < min_word_length crossed_cfg)%Z
  /\ extract_words crossed_cfg (py "the quick brown fox") = [].
Proof.
  assert (4 < min_word_length crossed_cfg)%Z as Hlt by (simpl; lia).
  split; [reflexivity|]. split; [exact Hlt|].
  exact (crossed_bounds_give_nothing crossed_cfg 4%Z (py "the quick brown fox")
           eq_refl (or_introl Hlt)).
Defined.

Lemma extract_words_case_insensitive_witness :
  with_numbers default_cfg = false
  /\ Forall (fun c => (c < 0x100)%N) (py "Hello World")
  /\ extract_words default_cfg (str_lower (py "Hello World"))
     = extract_words default_cfg (py "Hello World").
Proof.
  assert (Forall (fun c => (c < 0x100)%N) (py "Hello World")) as Hl
    by (repeat constructor).
  split; [reflexivity|]. split; [exact Hl|].
  exact (extract_words_case_insensitive default_cfg (py "Hello World") eq_refl Hl).
Defined.

Lemma emails_come_from_text_witness :
  (0x40%N ∉ py "no address here")
  /\ extract_emails (py "no address here") = [].
Proof.
  assert (0x40%N ∉ py "no address here") as Hno by decide_by_computing.
  split; [exact Hno|].
  exact (proj2 (emails_come_from_text (py "no address here")) Hno).
Defined.

Lemma emails_of_run_witness :
  let self := cewl_of_args sample_args in
  truthy (email_file self) = true
  /\ py "root@site.com" ∈ final_emails (run self)
  /\ exists st o, run self = Some (st, o)
       /\ exists before url d after p,
            requests st = before ++ (url, d) :: after
            /\ http_get (map fst before) url = Parsed p
            /\ py "root@site.com" ∈ extract_emails (page_text p).
Proof.
  intros self.
  assert (py "root@site.com" ∈ final_emails (run self)) as Hin
    by decide_by_computing.
  split; [reflexivity|]. split; [exact Hin|].
  destruct (emails_of_run self) as (st & o & Hrun & _ & Hfrom).
  exists st, o. split; [exact Hrun|].
  rewrite Hrun in Hin. exact (Hfrom _ Hin).
Defined.


Lemma run_request_log_witness :
  (0 <= depth default_cfg)%Z
  /\ is_Some (netloc (start_url default_cfg))
  /\ exists st o, run default_cfg = Some (st, o) /\ requests st <> [].
Proof.
  assert (0 <= depth default_cfg)%Z as Hd by (simpl; lia).
  assert (is_Some (netloc (start_url default_cfg))) as Hn
    by (exists (py "site.com"); vm_compute; reflexivity).
  split; [exact Hd|]. split; [exact Hn|].
  destruct (run_request_log default_cfg) as (st & o & Hrun & _ & Hne).
  exists st, o. split; [exact Hrun|exact (Hne Hd Hn)].
Defined.

Lemma run_without_page_witness :
  (0 <= depth broken_cfg)%Z
  /\ is_Some (netloc (start_url broken_cfg))
  /\ (forall p, http_get [] (start_url broken_cfg) <> Parsed p)
  /\ exists st, run broken_cfg = Some (st, Returned)
       /\ words st = ∅ /\ emails st = ∅
       /\ requests st = [(start_url broken_cfg, 0%Z)].
Proof.
  assert (0 <= depth broken_cfg)%Z as Hd by (simpl; lia).
  assert (is_Some (netloc (start_url broken_cfg))) as Hn
    by (exists (py "site.com"); vm_compute; reflexivity).
  assert (forall p, http_get [] (start_url broken_cfg) <> Parsed p) as Hf
    by (intros p; vm_compute; discriminate).
  split; [exact Hd|]. split; [exact Hn|]. split; [exact Hf|].
  exact (proj2 (proj2 (run_without_page broken_cfg)) Hd Hn Hf).
Defined.

Lemma auth_needs_colon_witness :
  args_auth bad_auth_args = Some (py "user")
  /\ py "user" <> []
  /\ (0x3A%N ∉ py "user")
  /\ main bad_auth_args
     = Some {| exit_code := 1; effects := []; requested := [] |}.
Proof.
  assert (py "user" <> []) as Hne by discriminate.
  assert (0x3A%N ∉ py "user") as Hno by decide_by_computing.
  split; [reflexivity|]. split; [exact Hne|]. split; [exact Hno|].
  exact (proj1 (proj2 (auth_needs_colon bad_auth_args)) (py "user")
           eq_refl Hne Hno).
Defined.

Lemma word_list_order_witness :
  let m : gmap str nat := <[py "fox" := 1%nat]> (<[py "the" := 2%nat]> ∅) in
  map_to_list m ≡ₚ map_to_list m
  /\ sorted_words false (map_to_list m) = [(py "the", 2%nat); (py "fox", 1%nat)]
  /\ forall w n, (w, n) ∈ sorted_words false (map_to_list m) <-> m !! w = Some n.
Proof.
  intros m. split; [reflexivity|]. split; [vm_compute; reflexivity|].
  exact (proj1 (word_list_order m (map_to_list m) (Permutation_refl _))).
Defined.

Lemma word_text_layout_witness :
  items_listed /\ word_text false ∅ = [0x0A%N].
Proof.
  assert items_listed as Hitems by (intros c; reflexivity).
  split; [exact Hitems|].
  exact (proj1 (proj2 (word_text_layout false ∅ Hitems)) eq_refl).
Defined.

Lemma main_outcome_witness :
  exists e, main sample_args = Some e
    /\ (exit_code e = 0%Z \/ exit_code e = 1%Z).
Proof.
  destruct (main_outcome sample_args) as (e & Hmain & Hcode & _).
  exists e. split; [exact Hmain|exact Hcode].
Defined.
End SampleMore.

Section SampleBracket.
#[local] Existing Instance latin_unicode.
#[local] Existing Instance bracket_web.
#[local] Existing Instance sample_host.

Lemma rejected_link_ends_page_witness :
  let url := py "http://site.com/" in
  let rec := fun s u => crawl default_cfg s u 1 in
  urljoin url (py "http://[site.com/x") = None
  /\ crawl_links rec url
       [py "http://site.com/a"; py "http://[site.com/x"; py "https://site.com/b"]
       new_instance
     = crawl_links rec url [py "http://site.com/a"] new_instance.
Proof.
  intros url rec.
  assert (urljoin url (py "http://[site.com/x") = None) as Hbad
    by (vm_compute; reflexivity).
  split; [exact Hbad|].
  exact (rejected_link_ends_page rec url (py "http://[site.com/x")
           [py "http://site.com/a"] [py "https://site.com/b"] new_instance Hbad).
Defined.

Lemma main_rejects_bad_url_witness :
  parse_auth (args_auth bad_url_args) <> None
  /\ (0 <= args_depth bad_url_args)%Z
  /\ netloc (args_url bad_url_args) = None
  /\ main bad_url_args
     = Some {| exit_code := 1; effects := []; requested := [] |}.
Proof.
  assert (parse_auth (args_auth bad_url_args) <> None) as Ha by discriminate.
  assert (0 <= args_depth bad_url_args)%Z as Hd by (simpl; lia).
  assert (netloc (args_url bad_url_args) = None) as Hn by (vm_compute; reflexivity).
  split; [exact Ha|]. split; [exact Hd|]. split; [exact Hn|].
  exact (main_rejects_bad_url bad_url_args Ha Hd Hn).
Defined.
End SampleBracket.
